(** * ykenan_file: a shallow embedding of the file helpers

    The development follows [src/ykenan_file/__init__.py] and
    [src/ykenan_file/_read_.py].  Python exceptions are values of [exn],
    a call that can raise returns a [result].  The file system and the
    tabular-data library are the two external collaborators and are
    represented by what the code observes of them: a directory listing is
    the list of entries [os.scandir] yields, an open text file is the text
    still to be read, a table is its labels and its rows, and the
    operations of the library the helpers call (grouped statistics, ranks
    within groups, the inner join) are functions on such tables that
    follow the documented behaviour of the library.  The logger has no
    part in the results and is left out. *)

From Stdlib Require Import ZArith QArith Ascii String Permutation.
From stdpp Require Import base option list strings gmap.

Local Open Scope string_scope.
Local Open Scope list_scope.
Local Open Scope Z_scope.

(** ** Exceptions and results *)

Inductive exn : Type :=
  | ValueError (msg : string)
  | IndexError (msg : string)
  | KeyError (key : string)
  | TypeError (msg : string)
  | OSError (path : string).

(** [Diverge] marks a loop that used up its fuel; no Python run ends so. *)
Inductive result (A : Type) : Type :=
  | Ok (a : A)
  | Raise (e : exn)
  | Diverge.

Arguments Ok {A} a.
Arguments Raise {A} e.
Arguments Diverge {A}.

Definition bind {A B : Type} (r : result A) (k : A -> result B) : result B :=
  match r with
  | Ok a => k a
  | Raise e => Raise e
  | Diverge => Diverge
  end.

Notation "'let*' x ':=' r 'in' k" := (bind r (fun x => k))
  (at level 10, x name, r at level 100, k at level 200).

(** ** Directory enumeration *)

(** What the code reads of an [os.DirEntry]. *)
Record DirEntry : Type := mkDirEntry {
  entry_name : string;
  entry_path : string;
  entry_is_file : bool;
  entry_is_dir : bool
}.

(** [os.scandir]: the entries of a directory in the order the iterator
    yields them, or nothing when the path cannot be scanned. *)
Definition filesystem : Type := string -> option (list DirEntry).

Definition scandir (fs : filesystem) (path : string) : result (list DirEntry) :=
  match fs path with
  | Some it => Ok it
  | None => Raise (OSError path)
  end.

Definition type_error_message : string :=
  "type input error, type is 0 or 1 or 2.".

(** The body of the [for entry in it] loop shared by [entry_contents] and
    [entry_contents_path]; [field] is [entry.name] or [entry.path]. *)
Fixpoint entry_loop (field : DirEntry -> string) (it : list DirEntry)
    (type_ : Z) (contents : list string) : result (list string) :=
  match it with
  | [] => Ok contents
  | entry :: it' =>
      if type_ =? 0 then
        entry_loop field it' type_ (contents ++ [field entry])
      else if (type_ =? 1) && entry_is_file entry then
        entry_loop field it' type_ (contents ++ [field entry])
      else if (type_ =? 2) && entry_is_dir entry then
        entry_loop field it' type_ (contents ++ [field entry])
      else
        Raise (ValueError type_error_message)
  end.

Definition entry_contents (fs : filesystem) (path : string) (type_ : Z)
    : result (list string) :=
  let* it := scandir fs path in
  entry_loop entry_name it type_ [].

Definition entry_contents_path (fs : filesystem) (path : string) (type_ : Z)
    : result (list string) :=
  let* it := scandir fs path in
  entry_loop entry_path it type_ [].

(** The sibling helpers, which test the kind of the entry and nothing else. *)
Fixpoint select_loop (field : DirEntry -> string) (keep : DirEntry -> bool)
    (it : list DirEntry) (acc : list string) : list string :=
  match it with
  | [] => acc
  | entry :: it' =>
      if keep entry then select_loop field keep it' (acc ++ [field entry])
      else select_loop field keep it' acc
  end.

Definition get_files (fs : filesystem) (path : string) : result (list string) :=
  let* it := scandir fs path in
  Ok (select_loop entry_name entry_is_file it []).

Definition get_files_path (fs : filesystem) (path : string) : result (list string) :=
  let* it := scandir fs path in
  Ok (select_loop entry_path entry_is_file it []).

Definition get_dirs (fs : filesystem) (path : string) : result (list string) :=
  let* it := scandir fs path in
  Ok (select_loop entry_name entry_is_dir it []).

Definition get_dirs_path (fs : filesystem) (path : string) : result (list string) :=
  let* it := scandir fs path in
  Ok (select_loop entry_path entry_is_dir it []).

(** A value of the dictionary [entry_contents_dict] builds: the path of an
    entry, or the list of names stored under the key ["name"]. *)
Inductive dict_value : Type :=
  | DPath (p : string)
  | DNames (names : list string).

(** The four locals of [entry_contents_dict]. *)
Record dict_state : Type := mkDictState {
  st_files : list string;
  st_dirs : list string;
  st_contents : list string;
  st_dict : gmap string dict_value
}.

(** [dict(itertools.chain(dict_.items(), {k: v}.items()))]: the later item
    wins, which is insertion. *)
Definition chain_item (d : gmap string dict_value) (k : string) (v : dict_value)
    : gmap string dict_value :=
  <[k := v]> d.

Fixpoint entry_dict_loop (it : list DirEntry) (type_ : Z) (st : dict_state)
    : result dict_state :=
  match it with
  | [] => Ok st
  | entry :: it' =>
      let dict_' := chain_item (st_dict st) (entry_name entry) (DPath (entry_path entry)) in
      if type_ =? 0 then
        entry_dict_loop it' type_
          (mkDictState (st_files st) (st_dirs st) (st_contents st ++ [entry_name entry]) dict_')
      else if (type_ =? 1) && entry_is_file entry then
        entry_dict_loop it' type_
          (mkDictState (st_files st ++ [entry_name entry]) (st_dirs st) (st_contents st) dict_')
      else if (type_ =? 2) && entry_is_dir entry then
        entry_dict_loop it' type_
          (mkDictState (st_files st) (st_dirs st ++ [entry_name entry]) (st_contents st) dict_')
      else
        Raise (ValueError type_error_message)
  end.

Definition entry_contents_dict (fs : filesystem) (path : string) (type_ : Z)
    : result (gmap string dict_value) :=
  let* it := scandir fs path in
  let* st := entry_dict_loop it type_ (mkDictState [] [] [] ∅) in
  Ok (chain_item (st_dict st) "name"
        (DNames (if type_ =? 0 then st_contents st
                 else if type_ =? 1 then st_files st
                 else st_dirs st))).

Definition entry_files_dict (fs : filesystem) (path : string) :=
  entry_contents_dict fs path 1.

Definition entry_dirs_dict (fs : filesystem) (path : string) :=
  entry_contents_dict fs path 2.

(** ** Python string helpers *)

(** [s.endswith(suffix)]. *)
Definition endswith (s suffix : string) : bool :=
  let n := String.length s in
  let m := String.length suffix in
  (m <=? n)%nat && String.eqb (substring (n - m) m s) suffix.

(** [str.isspace] on one character, for the code points below 256. *)
Definition is_space (c : ascii) : bool :=
  let n := nat_of_ascii c in
  ((9 <=? n) && (n <=? 13) || (28 <=? n) && (n <=? 32)
   || (n =? 133) || (n =? 160))%nat.

Fixpoint lstrip (s : string) : string :=
  match s with
  | EmptyString => EmptyString
  | String c s' => if is_space c then lstrip s' else s
  end.

Fixpoint rstrip (s : string) : string :=
  match s with
  | EmptyString => EmptyString
  | String c s' =>
      match rstrip s' with
      | EmptyString => if is_space c then EmptyString else String c EmptyString
      | r => String c r
      end
  end.

(** [s.strip()]. *)
Definition strip (s : string) : string := rstrip (lstrip s).

Definition newline : ascii := ascii_of_nat 10.

(** The line break, as a string. *)
Definition line_break : string := String newline "".

(** [f.readline()] on the text still to be read: the line up to and
    including its newline, and the text left; at end of file the line is
    the empty string. *)
Fixpoint readline (f : string) : string * string :=
  match f with
  | EmptyString => (EmptyString, EmptyString)
  | String c f' =>
      if Ascii.eqb c newline then (String c EmptyString, f')
      else let '(line, rest) := readline f' in (String c line, rest)
  end.

(** ** Reading a file line by line *)

(** The text files of the file system, as [open(path, mode, encoding)]
    hands them to the reader: decoded, newlines translated. *)
Definition textfs : Type := string -> option string.

Definition open_text (fs : textfs) (path : string) : result string :=
  match fs path with
  | Some text => Ok text
  | None => Raise (OSError path)
  end.

(** The [while True] loop of [read_file_line]; [f] is the file position,
    [content] the list built so far. *)
Fixpoint read_loop (fuel : nat) (f : string) (content : list string)
    : result (list string) :=
  match fuel with
  | O => Diverge
  | S fuel' =>
      let '(raw, f') := readline f in
      let line := strip raw in
      let content' := content ++ [line] in
      if String.eqb line "" then Ok content'
      else read_loop fuel' f' content'
  end.

Definition read_file_line (fs : textfs) (path : string) : result (list string) :=
  let* f := open_text fs path in
  read_loop (S (String.length f)) f [].

(** ** The tabular I/O facade: dispatch on the file suffix *)

(** [header]: ["infer"], a row number, or [None]. *)
Inductive header_option : Type :=
  | HeaderInfer
  | HeaderRow (n : Z)
  | HeaderNone.

(** [sheet_name]: a sheet index or a sheet name. *)
Inductive sheet_option : Type :=
  | SheetIndex (n : Z)
  | SheetName (s : string).

(** The parser of the tabular-data library a read is handed to, with the
    arguments of the call. *)
Inductive parser_call : Type :=
  | read_table (file sep : string) (header : header_option)
      (encoding : string) (low_memory : bool)
  | read_csv (file sep : string) (header : header_option)
      (encoding : string) (low_memory : bool)
  | read_excel (file : string) (sheet_name : sheet_option) (header : Z)
  | read_html (file : string) (header : header_option) (encoding : string)
  | read_json (file orient : string) (lines : bool) (encoding : string).

(** The serializer a write is handed to. *)
Inductive serializer_call : Type :=
  | to_csv (file sep line_terminator : string) (header : bool)
      (encoding : string) (index : bool)
  | to_excel (file : string) (sheet_name : string) (header index : bool)
  | to_string (file : string).

(** [self.header if isinstance(self.header, int) else 0] *)
Definition excel_header (h : header_option) : Z :=
  match h with
  | HeaderRow n => n
  | _ => 0
  end.

(** Class [Read] of [__init__.py]. *)
Module Read.

Record t : Type := mk {
  sep : string;
  line_terminator : string;
  encoding : string;
  orient : string;
  lines : bool;
  header : header_option;
  sheet_name : sheet_option;
  low_memory : bool
}.

(** The defaults of [__init__]. *)
Definition default : t :=
  mk (String (ascii_of_nat 9) "") (String newline "") "utf-8" "records"
     true HeaderInfer (SheetIndex 0) false.

(** [get_content]: the call whose value is returned; [None] when every
    test fails and the method falls off its end. *)
Definition get_content (self : t) (file : string) : option parser_call :=
  if endswith file ".txt" || endswith file ".bed" then
    Some (read_table file (sep self) (header self) (encoding self) (low_memory self))
  else if endswith file ".csv" then
    Some (read_csv file "," (header self) (encoding self) (low_memory self))
  else if endswith file ".xls" || endswith file ".xlsx" then
    Some (read_excel file (sheet_name self) (excel_header (header self)))
  else if endswith file ".html" || endswith file ".htm" then
    Some (read_html file (header self) (encoding self))
  else if endswith file ".json" then
    Some (read_json file (orient self) (lines self) (encoding self))
  else None.

(** [read_file], on the sequence of its arguments. *)
Definition read_file (self : t) (files : list string) : list (option parser_call) :=
  map (get_content self) files.

End Read.

(** Class [Read] of [_read_.py]; its two logging arguments only reach the
    logger. *)
Module ReadFile.

Record t : Type := mk {
  sep : string;
  line_terminator : string;
  encoding : string;
  orient : string;
  lines : bool;
  header : header_option;
  sheet_name : sheet_option;
  low_memory : bool;
  log_file : string;
  is_form_log_file : bool
}.

Definition default : t :=
  mk (String (ascii_of_nat 9) "") (String newline "") "utf-8" "records"
     true HeaderInfer (SheetIndex 0) false "YKenan_file" true.

Definition get_content (self : t) (file : string) : option parser_call :=
  if endswith file ".txt" || endswith file ".bed" || endswith file ".tsv" then
    Some (read_table file (sep self) (header self) (encoding self) (low_memory self))
  else if endswith file ".csv" then
    Some (read_csv file "," (header self) (encoding self) (low_memory self))
  else if endswith file ".xls" || endswith file ".xlsx" then
    Some (read_excel file (sheet_name self) (excel_header (header self)))
  else if endswith file ".html" || endswith file ".htm" then
    Some (read_html file (header self) (encoding self))
  else if endswith file ".json" then
    Some (read_json file (orient self) (lines self) (encoding self))
  else None.

Definition read_file (self : t) (files : list string) : list (option parser_call) :=
  map (get_content self) files.

End ReadFile.

(** The public settings of class [Create]. *)
Module CreateOptions.

Record t : Type := mk {
  sep : string;
  line_terminator : string;
  encoding : string;
  index : bool;
  header : bool;
  sheet_name : string
}.

Definition default : t :=
  mk (String (ascii_of_nat 9) "") (String newline "") "utf_8_sig"
     false true "new_sheet".

End CreateOptions.

(** [Create.to_file]: the serializer chosen for [file]. *)
Definition to_file_call (self : CreateOptions.t) (file : string) : serializer_call :=
  if endswith file ".txt" then
    to_csv file (CreateOptions.sep self) (CreateOptions.line_terminator self)
      (CreateOptions.header self) (CreateOptions.encoding self) (CreateOptions.index self)
  else if endswith file ".csv" then
    to_csv file "," (CreateOptions.line_terminator self)
      (CreateOptions.header self) (CreateOptions.encoding self) (CreateOptions.index self)
  else if endswith file ".xls" || endswith file ".xlsx" then
    to_excel file (CreateOptions.sheet_name self)
      (CreateOptions.header self) (CreateOptions.index self)
  else
    to_string file.

(** ** Tables

    The tabular-data library is an external collaborator.  A table is
    represented by what the helpers use of it: the column labels and the
    rows, positionally aligned with the labels.  A cell holds a number, a
    string or the missing value.  Numbers are rationals compared with
    [Qeq]; rounding is not represented. *)

Inductive scalar : Type :=
  | Num (q : Q)
  | Str (s : string)
  | NaN.

Definition scalar_eqb (a b : scalar) : bool :=
  match a, b with
  | Num p, Num q => Qeq_bool p q
  | Str s, Str t => String.eqb s t
  | NaN, NaN => true
  | _, _ => false
  end.

Definition isna (a : scalar) : bool :=
  match a with
  | NaN => true
  | _ => false
  end.

Definition Qltb (p q : Q) : bool := negb (Qle_bool q p).

(** The order group keys are listed in: numbers, then strings. *)
Definition scalar_leb (a b : scalar) : bool :=
  match a, b with
  | Num p, Num q => Qle_bool p q
  | Num _, _ => true
  | Str _, Num _ => false
  | Str s, Str t => String.leb s t
  | Str _, NaN => true
  | NaN, NaN => true
  | NaN, _ => false
  end.

Record DataFrame : Type := mkDataFrame {
  columns : list string;
  rows : list (list scalar)
}.

(** Rows are as long as the list of labels. *)
Definition wf_frame (df : DataFrame) : Prop :=
  Forall (fun row => length row = length (columns df)) (rows df).

Definition cell (row : list scalar) (i : nat) : scalar := nth i row NaN.

(** The positions of [label] among the labels, counted from [i]. *)
Fixpoint label_positions (label : string) (cols : list string) (i : nat) : list nat :=
  match cols with
  | [] => []
  | c :: cols' =>
      if String.eqb c label then i :: label_positions label cols' (S i)
      else label_positions label cols' (S i)
  end.

(** Selecting one column by its label: the label must be there, once. *)
Definition column_index (cols : list string) (label : string) : result nat :=
  match label_positions label cols 0 with
  | [] => Raise (KeyError label)
  | [i] => Ok i
  | _ => Raise (ValueError ("The column label '" +:+ label +:+ "' is not unique."))
  end.

(** [df.columns = names] *)
Definition set_columns (df : DataFrame) (names : list string) : result DataFrame :=
  if (length names =? length (columns df))%nat then Ok (mkDataFrame names (rows df))
  else Raise (ValueError "Length mismatch").

Fixpoint set_cells (ps : list nat) (v : scalar) (row : list scalar) : list scalar :=
  match ps with
  | [] => row
  | p :: ps' => set_cells ps' v (<[p := v]> row)
  end.

(** [df[label] = values]: a column of that label is overwritten in place,
    otherwise the column is appended. *)
Definition assign_column (df : DataFrame) (label : string) (values : list scalar)
    : DataFrame :=
  match label_positions label (columns df) 0 with
  | [] =>
      mkDataFrame (columns df ++ [label])
        (zip_with (fun row v => row ++ [v]) (rows df) values)
  | ps =>
      mkDataFrame (columns df)
        (zip_with (fun row v => set_cells ps v row) (rows df) values)
  end.

Fixpoint map_result {A B : Type} (f : A -> result B) (l : list A) : result (list B) :=
  match l with
  | [] => Ok []
  | a :: l' =>
      let* b := f a in
      let* bs := map_result f l' in
      Ok (b :: bs)
  end.

(** *** Grouping *)

(** [df.groupby(group)[column]]: per row, the key and the value. *)
Definition keyed_values (df : DataFrame) (gi ci : nat) : list (scalar * scalar) :=
  map (fun row => (cell row gi, cell row ci)) (rows df).

(** The values of the rows of group [k], in row order. *)
Definition group_values (k : scalar) (col : list (scalar * scalar)) : list scalar :=
  map snd (List.filter (fun kv => scalar_eqb (fst kv) k) col).

(** The distinct keys; a missing key opens no group. *)
Fixpoint group_keys (seen : list scalar) (ks : list scalar) : list scalar :=
  match ks with
  | [] => []
  | k :: ks' =>
      if isna k || existsb (scalar_eqb k) seen then group_keys seen ks'
      else k :: group_keys (k :: seen) ks'
  end.

Fixpoint insert_key (k : scalar) (sorted : list scalar) : list scalar :=
  match sorted with
  | [] => [k]
  | k' :: sorted' =>
      if scalar_leb k k' then k :: sorted else k' :: insert_key k sorted'
  end.

Definition sort_keys (ks : list scalar) : list scalar :=
  fold_right insert_key [] ks.

(** The numbers of a group, missing values skipped; a string has no part
    in the numeric aggregations. *)
Fixpoint numbers (vs : list scalar) : result (list Q) :=
  match vs with
  | [] => Ok []
  | Num q :: vs' => let* qs := numbers vs' in Ok (q :: qs)
  | NaN :: vs' => numbers vs'
  | Str _ :: _ => Raise (TypeError "Could not convert string to numeric")
  end.

(** *** Aggregations of a group *)

Inductive statistic : Type :=
  | stat_size | stat_mean | stat_var | stat_sem | stat_std
  | stat_median | stat_min | stat_max | stat_sum | stat_prod.

Definition Qsum (qs : list Q) : Q := fold_right Qplus 0%Q qs.

Definition Qproduct (qs : list Q) : Q := fold_right Qmult 1%Q qs.

Definition Qnat (n : nat) : Q := inject_Z (Z.of_nat n).

Definition Qcount {A : Type} (l : list A) : Q := Qnat (length l).

Definition Qmean (qs : list Q) : Q := (Qsum qs / Qcount qs)%Q.

Definition Qsmaller (p q : Q) : Q := if Qle_bool p q then p else q.

Definition Qlarger (p q : Q) : Q := if Qle_bool p q then q else p.

Fixpoint Qinsert (q : Q) (sorted : list Q) : list Q :=
  match sorted with
  | [] => [q]
  | p :: sorted' => if Qle_bool q p then q :: sorted else p :: Qinsert q sorted'
  end.

Definition Qsort (qs : list Q) : list Q := fold_right Qinsert [] qs.

Definition Qmedian (qs : list Q) : Q :=
  let sorted := Qsort qs in
  let n := length sorted in
  if Nat.even n then
    ((nth (n / 2 - 1) sorted 0 + nth (n / 2) sorted 0) / 2)%Q
  else nth (n / 2) sorted 0%Q.

(** The delta degrees of freedom of [var], [std] and [sem]. *)
Definition ddof : nat := 1.

(** The sum of squared deviations over [n - ddof]; with no more than
    [ddof] numbers the result is the missing value. *)
Definition sample_var (qs : list Q) : scalar :=
  if (length qs <=? ddof)%nat then NaN
  else
    Num (Qsum (map (fun x => (x - Qmean qs) * (x - Qmean qs)) qs)
         / (Qcount qs - Qnat ddof))%Q.

(** Of an empty selection, [empty]; else [f]. *)
Definition of_numbers (empty : scalar) (f : list Q -> Q) (qs : list Q) : scalar :=
  match qs with
  | [] => empty
  | _ => Num (f qs)
  end.

Section Aggregate.

(** The square root of the number format, left open. *)
Variable sqrtQ : Q -> Q.

Definition sample_std (qs : list Q) : scalar :=
  match sample_var qs with
  | Num v => Num (sqrtQ v)
  | other => other
  end.

Definition sample_sem (qs : list Q) : scalar :=
  match sample_std qs with
  | Num s => Num (s / sqrtQ (Qcount qs))%Q
  | other => other
  end.

(** One statistic of the values of one group.  [size] counts the rows;
    the others work on the numbers. *)
Definition aggregate (st : statistic) (vs : list scalar) : result scalar :=
  match st with
  | stat_size => Ok (Num (Qcount vs))
  | _ =>
      let* qs := numbers vs in
      Ok (match st with
          | stat_size => Num (Qcount vs)
          | stat_mean => of_numbers NaN Qmean qs
          | stat_var => sample_var qs
          | stat_sem => sample_sem qs
          | stat_std => sample_std qs
          | stat_median => of_numbers NaN Qmedian qs
          | stat_min => of_numbers NaN (fun l => fold_right Qsmaller (hd 0%Q l) l) qs
          | stat_max => of_numbers NaN (fun l => fold_right Qlarger (hd 0%Q l) l) qs
          | stat_sum => Num (Qsum qs)
          | stat_prod => Num (Qproduct qs)
          end)
  end.

(** [df.groupby(group)[column].<st>().reset_index()]: one row per group,
    the key and the statistic, under the labels [group] and [column]. *)
Definition groupby_agg (df : DataFrame) (group column : string) (st : statistic)
    : result DataFrame :=
  let* gi := column_index (columns df) group in
  let* ci := column_index (columns df) column in
  let col := keyed_values df gi ci in
  let keys := sort_keys (group_keys [] (map fst col)) in
  let* rs := map_result
               (fun k => let* v := aggregate st (group_values k col) in Ok [k; v])
               keys in
  if String.eqb group column then
    Raise (ValueError ("cannot insert " +:+ group +:+ ", already exists"))
  else Ok (mkDataFrame [group; column] rs).

End Aggregate.

(** *** Ranking within groups *)

Inductive rank_method : Type :=
  | method_average | method_min | method_max | method_dense | method_first.

Definition method_name (m : rank_method) : string :=
  match m with
  | method_average => "average"
  | method_min => "min"
  | method_max => "max"
  | method_dense => "dense"
  | method_first => "first"
  end.

Definition count_if {A : Type} (f : A -> bool) (l : list A) : nat :=
  length (List.filter f l).

(** The numbers of the rows of group [k], in row order. *)
Fixpoint group_numbers (k : scalar) (col : list (scalar * scalar)) : list Q :=
  match col with
  | [] => []
  | (k', Num y) :: col' =>
      if scalar_eqb k' k then y :: group_numbers k col' else group_numbers k col'
  | _ :: col' => group_numbers k col'
  end.

Fixpoint distinct (qs : list Q) : list Q :=
  match qs with
  | [] => []
  | q :: qs' => if existsb (Qeq_bool q) qs' then distinct qs' else q :: distinct qs'
  end.

(** The rank of [x] among the numbers [all] of its group; [before] are
    those of the rows above. *)
Definition rank_value (m : rank_method) (before all : list Q) (x : Q) : Q :=
  let less := count_if (fun y => Qltb y x) all in
  let equal := count_if (fun y => Qeq_bool y x) all in
  match m with
  | method_average => (Qnat ((less + 1) + (less + equal)) / 2)%Q
  | method_min => Qnat (less + 1)
  | method_max => Qnat (less + equal)
  | method_dense => Qnat (count_if (fun y => Qltb y x) (distinct all) + 1)
  | method_first => Qnat (less + count_if (fun y => Qeq_bool y x) before + 1)
  end.

(** The ranks of the rows [rest], which follow the rows [before]; a row
    with a missing key or a missing value keeps the missing value. *)
Fixpoint rank_rows (m : rank_method) (all before rest : list (scalar * scalar))
    : list scalar :=
  match rest with
  | [] => []
  | (k, v) :: rest' =>
      match v with
      | Num x =>
          if isna k then NaN
          else Num (rank_value m (group_numbers k before) (group_numbers k all) x)
      | _ => NaN
      end :: rank_rows m all (before ++ [(k, v)]) rest'
  end.

(** [df.groupby(group)[column].rank(method)], aligned with the rows. *)
Definition groupby_rank (df : DataFrame) (group column : string) (m : rank_method)
    : result (list scalar) :=
  let* gi := column_index (columns df) group in
  let* ci := column_index (columns df) column in
  let col := keyed_values df gi ci in
  let* _ := numbers (map snd col) in
  Ok (rank_rows m col [] col).

(** *** Joining two tables *)

(** A label other than the key that both tables carry. *)
Definition overlapping (lc rc : list string) (on c : string) : bool :=
  negb (String.eqb c on) && existsb (String.eqb c) lc && existsb (String.eqb c) rc.

Definition suffixed (lc rc : list string) (on suffix c : string) : string :=
  if overlapping lc rc on c then c +:+ suffix else c.

(** The rows of the right table that have the key of the left row [lr],
    each put after [lr] without its own key cell. *)
Definition join_row (li ri : nat) (rrows : list (list scalar)) (lr : list scalar)
    : list (list scalar) :=
  map (fun rr => lr ++ delete ri rr)
    (List.filter (fun rr => scalar_eqb (cell lr li) (cell rr ri)) rrows).

Definition join_rows (li ri : nat) (lrows rrows : list (list scalar))
    : list (list scalar) :=
  flat_map (join_row li ri rrows) lrows.

(** [pd.merge(left, right, on=on)]: the inner join on one key column.
    The labels are those of the left table, then those of the right table
    without its key; a label that both tables carry gets the suffix of its
    side. *)
Definition pd_merge (left right : DataFrame) (on : string) : result DataFrame :=
  let* li := column_index (columns left) on in
  let* ri := column_index (columns right) on in
  let lc := columns left in
  let rc := columns right in
  Ok (mkDataFrame
        (map (suffixed lc rc on "_x") lc ++ map (suffixed lc rc on "_y") (delete ri rc))
        (join_rows li ri (rows left) (rows right))).

(** ** Class [Create] *)

(** What a call leaves on disk: the serializer chosen by [to_file] and the
    table handed to it; nothing when [output_file] is [None]. *)
Definition written : Type := option (serializer_call * DataFrame).

Module Create.

Definition to_file (self : CreateOptions.t) (df : DataFrame) (file : string)
    : serializer_call * DataFrame :=
  (to_file_call self file, df).

(** [if output_file is not None: self.to_file(df, output_file)] *)
Definition save (self : CreateOptions.t) (df : DataFrame)
    (output_file : option string) : written :=
  match output_file with
  | Some file => Some (to_file self df file)
  | None => None
  end.

(** The [while i < size] loop of [merge_files]; [files] are
    [files[i]], [files[i+1]], ... *)
Fixpoint merge_loop (new_file : DataFrame) (files : list DataFrame) (on : string)
    : result DataFrame :=
  match files with
  | [] => Ok new_file
  | file_i :: files' =>
      let* merged := pd_merge new_file file_i on in
      merge_loop merged files' on
  end.

(** The value of [new_file] when the loop of [merge_files] is left. *)
Definition merged_table (files : list DataFrame) (on : string) : result DataFrame :=
  match files with
  | [] => Raise (IndexError "list index out of range")
  | file_0 :: files' => merge_loop file_0 files' on
  end.

Definition merge_files (self : CreateOptions.t) (files : list DataFrame)
    (on : string) (output_file : option string) : result written :=
  let* new_file := merged_table files on in
  Ok (save self new_file output_file).

(** The [for method in ...] loop of [add_rank_by_group]; the table is
    updated in place, so each ranking reads what the rankings before it
    wrote. *)
Fixpoint rank_loop (methods : list rank_method) (df : DataFrame)
    (group column : string) : result DataFrame :=
  match methods with
  | [] => Ok df
  | method :: methods' =>
      let* ranks := groupby_rank df group column method in
      rank_loop methods' (assign_column df (method_name method +:+ "_rank") ranks)
        group column
  end.

Definition rank_methods : list rank_method :=
  [method_average; method_min; method_max; method_dense; method_first].

(** [add_rank_by_group]: the table after the call, and what was saved. *)
Definition add_rank_by_group (self : CreateOptions.t) (df : DataFrame)
    (group column : string) (output_file : option string)
    : result (DataFrame * written) :=
  let* df' := rank_loop rank_methods df group column in
  Ok (df', save self df' output_file).

Section Statistics.

Variable sqrtQ : Q -> Q.

(** [df.groupby(group)[column].<st>().reset_index()] followed by
    [.columns = [group, f"{column}<suffix>"]]. *)
Definition grouped_column (df : DataFrame) (group column : string)
    (st : statistic) (suffix : string) : result DataFrame :=
  let* t := groupby_agg sqrtQ df group column st in
  set_columns t [group; column +:+ suffix].

Definition add_sum_by_group (self : CreateOptions.t) (df : DataFrame)
    (group column : string) (output_file : option string)
    : result (DataFrame * written) :=
  let* column_sum := grouped_column df group column stat_sum "_sum" in
  Ok (column_sum, save self column_sum output_file).

(** [add_calculation_by_group]: the list it returns, and what was
    saved.  With an [output_file], [add_merge_files] is appended to the
    list before it is merged, and stays in the list returned. *)
Definition add_calculation_by_group (self : CreateOptions.t) (df : DataFrame)
    (group column : string) (output_file : option string)
    (add_merge_files : option (list DataFrame))
    : result (list DataFrame * written) :=
  let* column_size := grouped_column df group column stat_size "_size" in
  let* column_mean := grouped_column df group column stat_mean "_mean" in
  let* column_var := grouped_column df group column stat_var "_var" in
  let* column_sem := grouped_column df group column stat_sem "_sem" in
  let* column_std := grouped_column df group column stat_std "_std" in
  let* column_median := grouped_column df group column stat_median "_median" in
  let* column_min := grouped_column df group column stat_min "_min" in
  let* column_max := grouped_column df group column stat_max "_max" in
  let* sum_saved := add_sum_by_group self df group column None in
  let column_sum := fst sum_saved in
  let* column_prod := grouped_column df group column stat_prod "_prod" in
  let all_merge_files :=
    [column_size; column_mean; column_var; column_sem; column_std;
     column_median; column_min; column_max; column_sum; column_prod] in
  match output_file with
  | Some _ =>
      let all_merge_files' :=
        match add_merge_files with
        | Some extra => all_merge_files ++ extra
        | None => all_merge_files
        end in
      let* saved := merge_files self all_merge_files' group output_file in
      Ok (all_merge_files', saved)
  | None => Ok (all_merge_files, None)
  end.

End Statistics.

End Create.

(** ** Writing lines, and rewriting a file line by line *)

(** The two ways [write_file_line] is used to open its file: ['a'], the
    default, keeps what the file holds; ['w'] empties it. *)
Inductive write_mode : Type :=
  | mode_a
  | mode_w.

(** The text files as they are stored: decoded, with the line ends that
    were written. *)
Definition disk : Type := string -> option string.

Definition carriage_return : ascii := ascii_of_nat 13.

(** What a reader opened without [newline] makes of the stored text: a
    carriage return, with the line feed after it if there is one, is read
    as one line feed. *)
Fixpoint universal_newlines (s : string) : string :=
  match s with
  | EmptyString => EmptyString
  | String c s' =>
      if Ascii.eqb c carriage_return then
        match s' with
        | EmptyString => String newline EmptyString
        | String c' _ =>
            if Ascii.eqb c' newline then universal_newlines s'
            else String newline (universal_newlines s')
        end
      else String c (universal_newlines s')
  end.

(** The files as [open(path, 'r', encoding)] hands them to a reader. *)
Definition reader (d : disk) : textfs :=
  fun path => universal_newlines <$> d path.

(** The text of the file when it has been opened for writing. *)
Definition opened_text (d : disk) (path : string) (mode : write_mode) : string :=
  match mode, d path with
  | mode_a, Some text => text
  | _, _ => ""
  end.

(** The [for li in content: f.write(li + line)] loop; [written] is the
    text of the file so far. *)
Fixpoint write_loop (content : list string) (line : string) (written : string)
    : string :=
  match content with
  | [] => written
  | li :: content' => write_loop content' line (written +:+ (li +:+ line))
  end.

(** [write_file_line]: the files after the call, where the line separator
    of the system is the line feed, so that the text is stored as it is
    written. *)
Definition write_file_line (d : disk) (path : string) (content : list string)
    (line : string) (mode : write_mode) : disk :=
  fun p =>
    if String.eqb p path
    then Some (write_loop content line (opened_text d path mode))
    else d p.

(** A file that has been written and closed. *)
Definition stored (d : disk) (path text : string) : disk :=
  fun p => if String.eqb p path then Some text else d p.

Definition tab : string := String (ascii_of_nat 9) "".

(** The [while True] loop of [read_write_line]; [f] is the position in
    the input, [w] the text written so far.  A line for which the callback
    returns the empty list writes nothing. *)
Fixpoint read_write_loop (fuel : nat) (f : string)
    (callback : string -> list string) (w : string) : result string :=
  match fuel with
  | O => Diverge
  | S fuel' =>
      let '(raw, f') := readline f in
      let line := strip raw in
      if String.eqb line "" then Ok w
      else
        match callback line with
        | [] => read_write_loop fuel' f' callback w
        | new_line =>
            read_write_loop fuel' f' callback
              (w +:+ (String.concat tab new_line +:+ line_break))
        end
  end.

(** [read_write_line], for an input file [path] other than [output]: from
    the text [f] of the input as its reader receives it, the text the
    call leaves in [output], which it opens with ['w'] and [newline] set
    to the line feed, so that the text is stored as it is written.
    [column] is [None] or the list of column names. *)
Definition read_write_line (f : string) (callback : string -> list string)
    (column : option (list string)) : result string :=
  let w :=
    match column with
    | Some (c :: cs) => String.concat tab (c :: cs) +:+ line_break
    | _ => ""
    end in
  read_write_loop (S (String.length f)) f callback w.

(** ** Sample inputs *)

Module Samples.

(** A directory [d] holding one sub-directory. *)
Definition sub_entry : DirEntry := mkDirEntry "sub" "d/sub" false true.

Definition a_file : DirEntry := mkDirEntry "a.txt" "d/a.txt" true false.

Definition fs_sub : filesystem :=
  fun path => if String.eqb path "d" then Some [sub_entry] else None.

(** A directory [d] holding a file and a sub-directory. *)
Definition fs_mixed : filesystem :=
  fun path => if String.eqb path "d" then Some [a_file; sub_entry] else None.

(** An empty directory [d]. *)
Definition fs_empty : filesystem :=
  fun path => if String.eqb path "d" then Some [] else None.

End Samples.

(** ** Text as lines *)

(** The text whose lines are [ls], each closed by a line break. *)
Fixpoint unlines (ls : list string) : string :=
  match ls with
  | [] => ""
  | l :: ls' => l +:+ String newline (unlines ls')
  end.

Fixpoint has_newline (s : string) : bool :=
  match s with
  | EmptyString => false
  | String c s' => Ascii.eqb c newline || has_newline s'
  end.

Module TextSamples.

(** Two lines, a line of blanks, and one more line. *)
Definition text : string :=
  unlines ["chr1 10"; " chr2 20 "] +:+ "  " +:+ String newline "chr3 30".

Definition fs : textfs :=
  fun path => if String.eqb path "regions.bed" then Some text else None.

End TextSamples.

(** ** Reading a derived table *)



Module TableSamples.




End TableSamples.






(** ** Joins *)

(** The cells of the key column. *)
Definition key_cells (df : DataFrame) (on : string) : list scalar :=
  match column_index (columns df) on with
  | Ok i => map (fun row => cell row i) (rows df)
  | _ => []
  end.


(** Each key value occurs in one row at most. *)
Definition one_to_one (df : DataFrame) (on : string) : Prop :=
  forall i j ki kj,
    key_cells df on !! i = Some ki -> key_cells df on !! j = Some kj ->
    scalar_eqb ki kj = true -> i = j.

(** A way of grouping the pairwise joins of a sequence of tables. *)
Inductive grouping : Type :=
  | Leaf (t : DataFrame)
  | Join (l r : grouping).

Fixpoint tables_of (g : grouping) : list DataFrame :=
  match g with
  | Leaf t => [t]
  | Join l r => tables_of l ++ tables_of r
  end.

Fixpoint eval_grouping (g : grouping) (on : string) : result DataFrame :=
  match g with
  | Leaf t => Ok t
  | Join l r =>
      let* a := eval_grouping l on in
      let* b := eval_grouping r on in
      pd_merge a b on
  end.

(** The grouping [merge_files] uses: from the left. *)
Fixpoint left_grouping (g : grouping) (files : list DataFrame) : grouping :=
  match files with
  | [] => g
  | file_i :: files' => left_grouping (Join g (Leaf file_i)) files'
  end.

(** The position of the key in a table that has it. *)
Definition key_of (on : string) (t : DataFrame) : nat :=
  match column_index (columns t) on with
  | Ok i => i
  | _ => 0%nat
  end.

(** The join of a sequence of tables, grouped from the right: the position
    of the key of the first table, and the rows. *)
Fixpoint joined (on : string) (ts : list DataFrame) : nat * list (list scalar) :=
  match ts with
  | [] => (0%nat, [])
  | [t] => (key_of on t, rows t)
  | t :: ts' =>
      (key_of on t, join_rows (key_of on t) (joined on ts').1 (rows t) (joined on ts').2)
  end.

(** The key cell of every row is there. *)
Definition keyed (i : nat) (rs : list (list scalar)) : Prop :=
  Forall (fun row => (i < length row)%nat) rs.

Module JoinSamples.

Definition people : DataFrame :=
  mkDataFrame ["id"; "name"] [ [Num 1; Str "ann"]; [Num 2; Str "bob"] ].

Definition ages : DataFrame :=
  mkDataFrame ["age"; "id"] [ [Num 31; Num 2]; [Num 27; Num 1]; [Num 40; Num 3] ].

Definition towns : DataFrame :=
  mkDataFrame ["id"; "town"] [ [Num 1; Str "York"]; [Num 2; Str "Bath"] ].


End JoinSamples.

Module GroupingSamples.

Definition files : list DataFrame :=
  [JoinSamples.people; JoinSamples.ages; JoinSamples.towns].

Definition from_left : grouping :=
  Join (Join (Leaf JoinSamples.people) (Leaf JoinSamples.ages)) (Leaf JoinSamples.towns).

Definition from_right : grouping :=
  Join (Leaf JoinSamples.people) (Join (Leaf JoinSamples.ages) (Leaf JoinSamples.towns)).

End GroupingSamples.

(** ** Ranks within one group *)

(** The rank by order of appearance of [x], which follows the numbers
    [pre] of its group, among all the numbers [all] of the group. *)
Definition first_rank (all pre : list Q) (x : Q) : nat :=
  (count_if (fun y => Qltb y x) all + count_if (fun y => Qeq_bool y x) pre + 1)%nat.

(** The ranks of the numbers [rest], which follow [before]. *)
Fixpoint first_ranks (all before rest : list Q) : list nat :=
  match rest with
  | [] => []
  | x :: rest' => first_rank all before x :: first_ranks all (before ++ [x]) rest'
  end.

(** ** Reading columns *)

(** The cells of the column at position [i]. *)
Definition column_cells (i : nat) (df : DataFrame) : list scalar :=
  map (fun row => cell row i) (rows df).

(** Every cell of the column is a number. *)
Definition numeric_column (df : DataFrame) (column : string) : Prop :=
  forall ci, column_index (columns df) column = Ok ci ->
    Forall (fun v => exists x, v = Num x) (column_cells ci df).

(** The labels [add_rank_by_group] writes before it ranks by order of
    appearance. *)
Definition earlier_rank_labels : list string :=
  ["average_rank"; "min_rank"; "max_rank"; "dense_rank"].

(** The values 1, ..., [n] as cells. *)
Definition ranks_up_to (n : nat) : list scalar :=
  map (fun r => Num (Qnat r)) (seq 1 n).

(** The statement on ranks by order of appearance, read on the groups of
    the table given to [add_rank_by_group], a table with rows as long as
    its labels and numbers in the ranked column: in the column
    [first_rank] of the table after the call, the cells of the rows of
    each group are 1, ..., N in some order, N being the number of rows of
    the group. *)
Definition first_rank_permutes (self : CreateOptions.t) (df : DataFrame)
    (group column : string) : Prop :=
  wf_frame df ->
  numeric_column df column ->
  forall output_file df' saved gi ci,
    Create.add_rank_by_group self df group column output_file = Ok (df', saved) ->
    column_index (columns df) group = Ok gi ->
    column_index (columns df) column = Ok ci ->
    (exists fi, columns df' !! fi = Some "first_rank")
    /\ forall fi k,
         columns df' !! fi = Some "first_rank" ->
         isna k = false ->
         Permutation
           (group_values k (zip (column_cells gi df) (column_cells fi df')))
           (ranks_up_to (length (group_values k (keyed_values df gi ci)))).

(** What the loop of [add_rank_by_group] keeps of the table [df] it
    started from, in the table [df_k] it has reached: the shape, the
    places of the two columns, the keys, a number in the ranked column of
    every row that has a key, and no string in that column. *)
Definition rank_invariant (df df_k : DataFrame) (group column : string)
    (gi ci : nat) : Prop :=
  wf_frame df_k
  /\ length (rows df_k) = length (rows df)
  /\ column_index (columns df_k) group = Ok gi
  /\ column_index (columns df_k) column = Ok ci
  /\ column_cells gi df_k = column_cells gi df
  /\ Forall (fun kv => isna kv.1 = false -> exists x, kv.2 = Num x)
       (keyed_values df_k gi ci)
  /\ Forall (fun v => forall s, v <> Str s) (column_cells ci df_k).

Module RankSamples.

(** Two groups, [7] and [8], of one row each; the group key is labelled
    like the second rank column. *)
Definition keyed_by_min_rank : DataFrame :=
  mkDataFrame ["min_rank"; "x"] [ [Num 7; Num 5]; [Num 8; Num 5] ].

(** Ties within group [a]. *)
Definition scores : DataFrame :=
  mkDataFrame ["g"; "x"]
    [ [Str "a"; Num 5]; [Str "b"; Num 9]; [Str "a"; Num 3]; [Str "a"; Num 5] ].

End RankSamples.

(** ** More sample inputs *)

Module DirSamples.

Definition readme : DirEntry := mkDirEntry "README" "d/README" true false.

(** A file called like the key under which [entry_contents_dict] stores
    its list of names. *)
Definition name_file : DirEntry := mkDirEntry "name" "d/name" true false.

(** A directory [d] holding two files. *)
Definition fs_files : filesystem :=
  fun path => if String.eqb path "d" then Some [Samples.a_file; readme] else None.

(** A directory [d] holding the file [name] and another file. *)
Definition fs_name : filesystem :=
  fun path => if String.eqb path "d" then Some [name_file; readme] else None.

End DirSamples.

(** ** The dictionary of a directory *)

(** The list [entry_contents_dict] stores under ["name"]. *)
Definition selected_names (type_ : Z) (st : dict_state) : list string :=
  if type_ =? 0 then st_contents st
  else if type_ =? 1 then st_files st
  else st_dirs st.

(** The entries put into the dictionary one after the other. *)
Definition with_paths (d : gmap string dict_value) (it : list DirEntry)
    : gmap string dict_value :=
  foldl (fun d entry => chain_item d (entry_name entry) (DPath (entry_path entry))) d it.

(** ** Written text *)

(** The strings of a list, one after the other. *)
Definition concat_all (ls : list string) : string :=
  fold_right String.append "" ls.

(** What [read_write_line] writes for one line of its input. *)
Definition rendered (callback : string -> list string) (line : string) : string :=
  match callback line with
  | [] => ""
  | new_line => String.concat tab new_line +:+ line_break
  end.

(** What [read_write_line] writes before it reads. *)
Definition header_text (column : option (list string)) : string :=
  match column with
  | Some (c :: cs) => String.concat tab (c :: cs) +:+ line_break
  | _ => ""
  end.

(** A line that a reader returns as it is: no line break in it, and
    something left of it once stripped. *)
Definition plain_line (l : string) : Prop :=
  has_newline l = false /\ strip l <> "".

Fixpoint has_return (s : string) : bool :=
  match s with
  | EmptyString => false
  | String c s' => Ascii.eqb c carriage_return || has_return s'
  end.

(** A line that can be written and read back: a plain line without a
    carriage return. *)
Definition written_line (l : string) : Prop :=
  has_return l = false /\ plain_line l.

Module WriteSamples.

(** No file at all. *)
Definition no_files : disk := fun _ => None.

(** One file, of one line. *)
Definition one_file : disk := stored no_files "in.txt" (unlines [" chr1 "]).

Definition lines : list string := ["chr1 10 20"; "  chr2 5 9 "].

(** The fields of a line that has no blank in it; other lines are
    dropped. *)
Definition keep_short (line : string) : list string :=
  if (String.length line <=? 5)%nat then [line; "short"] else [].

End WriteSamples.

(** ** The two readers *)

(** The reader of [_read_.py] that has the settings of a reader of
    [__init__.py]. *)
Definition with_log (r : Read.t) (log_file : string) (is_form_log_file : bool)
    : ReadFile.t :=
  ReadFile.mk (Read.sep r) (Read.line_terminator r) (Read.encoding r)
    (Read.orient r) (Read.lines r) (Read.header r) (Read.sheet_name r)
    (Read.low_memory r) log_file is_form_log_file.

(** ** Rank columns *)




(** The table has a column [on], and one only. *)
Definition has_key (on : string) (t : DataFrame) : Prop :=
  exists i, column_index (columns t) on = Ok i.

(** ** The table of all statistics *)








(** * Properties *)

(** ** Directory enumeration *)

Lemma select_loop_filter field keep it acc :
  select_loop field keep it acc = acc ++ map field (List.filter keep it).
Proof.
  revert acc. induction it as [|entry it IH]; intros acc; simpl.
  - by rewrite app_nil_r.
  - destruct (keep entry); rewrite IH; simpl; [|done].
    by rewrite <- app_assoc.
Qed.

(** With selector 0 every name is collected. *)
Lemma entry_loop_all field it acc :
  entry_loop field it 0 acc = Ok (acc ++ map field it).
Proof.
  revert acc. induction it as [|entry it IH]; intros acc; simpl.
  - by rewrite app_nil_r.
  - rewrite IH. by rewrite <- app_assoc.
Qed.

(** With selector 1 the loop returns exactly when every entry is a file;
    the first entry of another kind ends it with the [ValueError]. *)
Lemma entry_loop_files field it acc :
  entry_loop field it 1 acc =
  if forallb entry_is_file it then Ok (acc ++ map field it)
  else Raise (ValueError type_error_message).
Proof.
  revert acc. induction it as [|entry it IH]; intros acc; simpl.
  - by rewrite app_nil_r.
  - destruct (entry_is_file entry); simpl; [|done].
    rewrite IH. destruct (forallb entry_is_file it); [|done].
    by rewrite <- app_assoc.
Qed.

Lemma entry_loop_dirs field it acc :
  entry_loop field it 2 acc =
  if forallb entry_is_dir it then Ok (acc ++ map field it)
  else Raise (ValueError type_error_message).
Proof.
  revert acc. induction it as [|entry it IH]; intros acc; simpl.
  - by rewrite app_nil_r.
  - destruct (entry_is_dir entry); simpl; [|done].
    rewrite IH. destruct (forallb entry_is_dir it); [|done].
    by rewrite <- app_assoc.
Qed.

(** With any other selector the loop raises at the first entry, and so
    only if there is one. *)
Lemma entry_loop_invalid field it type_ acc :
  type_ ≠ 0 → type_ ≠ 1 → type_ ≠ 2 →
  entry_loop field it type_ acc =
  match it with
  | [] => Ok acc
  | _ :: _ => Raise (ValueError type_error_message)
  end.
Proof.
  intros H0 H1 H2. destruct it as [|entry it]; [done|]. simpl.
  destruct (Z.eqb_spec type_ 0); [done|].
  destruct (Z.eqb_spec type_ 1); [done|].
  destruct (Z.eqb_spec type_ 2); [done|]. done.
Qed.

(** C1 (the code departs from the claim).  The files-only selector does
    not filter: in a directory whose only child is a sub-directory,
    [entry_contents] and [entry_contents_path] with selector 1 end with the
    [ValueError], where [get_files] and [get_files_path] return the empty
    list of file names; with selector 2 a file child does the same. *)
Theorem entry_contents_files_only_raises :
  entry_contents Samples.fs_sub "d" 1 = Raise (ValueError type_error_message)
  ∧ entry_contents_path Samples.fs_sub "d" 1 = Raise (ValueError type_error_message)
  ∧ entry_contents Samples.fs_mixed "d" 2 = Raise (ValueError type_error_message)
  ∧ get_files Samples.fs_sub "d" = Ok []
  ∧ get_files_path Samples.fs_sub "d" = Ok []
  ∧ get_dirs Samples.fs_mixed "d" = Ok ["sub"].
Proof. repeat split; reflexivity. Qed.

(** C2 (the code departs from the claim).  The selector is tested inside
    the loop over the entries: an empty directory is enumerated without an
    error whatever the selector, and the valid selector 1 raises the
    [ValueError] on a directory that holds a sub-directory. *)
Theorem entry_contents_selector_check_misplaced :
  entry_contents Samples.fs_empty "d" 3 = Ok []
  ∧ (∃ d, entry_contents_dict Samples.fs_empty "d" 3 = Ok d)
  ∧ entry_contents Samples.fs_sub "d" 1 = Raise (ValueError type_error_message)
  ∧ entry_contents_dict Samples.fs_sub "d" 1 = Raise (ValueError type_error_message).
Proof.
  split; [reflexivity|]. split; [eexists; reflexivity|].
  split; reflexivity.
Qed.

(** On a directory that is not empty, an invalid selector does raise the
    error, and its message names 0, 1 and 2. *)
Lemma entry_contents_invalid_nonempty fs path entry it type_ :
  fs path = Some (entry :: it) →
  type_ ≠ 0 → type_ ≠ 1 → type_ ≠ 2 →
  entry_contents fs path type_
  = Raise (ValueError "type input error, type is 0 or 1 or 2.").
Proof.
  intros Hfs H0 H1 H2. unfold entry_contents, scandir. rewrite Hfs. cbn [bind].
  by rewrite entry_loop_invalid.
Qed.

(** When every child is a file, selector 1 returns the names of the
    children, as [get_files] does. *)
Lemma entry_contents_only_files fs path it :
  fs path = Some it →
  forallb entry_is_file it = true →
  entry_contents fs path 1 = Ok (map entry_name it)
  ∧ get_files fs path = Ok (map entry_name it).
Proof.
  intros Hfs Hall. unfold entry_contents, get_files, scandir. rewrite Hfs.
  cbn [bind]. rewrite entry_loop_files, Hall, select_loop_filter. simpl.
  split; [done|]. f_equal. f_equal. clear Hfs.
  induction it as [|e it IH]; [done|]. simpl in *.
  destruct (entry_is_file e); [|done]. simpl. f_equal. by apply IH.
Qed.

(** ** Reading: dispatch on the suffix *)

(** C3.  A path that ends in none of [.txt], [.bed], [.tsv], [.csv],
    [.xls], [.xlsx], [.html], [.htm], [.json] falls through every test of
    [get_content], in [_read_.py] and in [__init__.py] alike: the method
    returns [None] and hands the file to no parser. *)
Theorem get_content_unrecognized_suffix
    (self : ReadFile.t) (self' : Read.t) (file : string) :
  endswith file ".txt" = false →
  endswith file ".bed" = false →
  endswith file ".tsv" = false →
  endswith file ".csv" = false →
  endswith file ".xls" = false →
  endswith file ".xlsx" = false →
  endswith file ".html" = false →
  endswith file ".htm" = false →
  endswith file ".json" = false →
  ReadFile.get_content self file = None ∧ Read.get_content self' file = None.
Proof.
  intros Htxt Hbed Htsv Hcsv Hxls Hxlsx Hhtml Hhtm Hjson.
  unfold ReadFile.get_content, Read.get_content.
  by rewrite Htxt, Hbed, Htsv, Hcsv, Hxls, Hxlsx, Hhtml, Hhtm, Hjson.
Qed.

Lemma get_content_unrecognized_suffix_witness :
  ReadFile.get_content ReadFile.default "table.parquet" = None
  ∧ Read.get_content Read.default "table.parquet" = None.
Proof.
  apply (get_content_unrecognized_suffix ReadFile.default Read.default "table.parquet");
    reflexivity.
Defined.

(** A recognized suffix selects a parser; [.tsv] is known to [_read_.py]
    only. *)
Lemma get_content_tsv :
  ReadFile.get_content ReadFile.default "t.tsv"
  = Some (read_table "t.tsv" (ReadFile.sep ReadFile.default) HeaderInfer "utf-8" false)
  ∧ Read.get_content Read.default "t.tsv" = None.
Proof. split; reflexivity. Qed.

(** *** Writing and reading choose the same format *)

Lemma endswith_same_length file s1 s2 :
  String.length s1 = String.length s2 → s1 ≠ s2 →
  endswith file s1 = true → endswith file s2 = false.
Proof.
  unfold endswith. intros Hlen Hne H. rewrite <- Hlen.
  apply andb_true_iff in H as [-> H]. simpl.
  apply String.eqb_eq in H. rewrite H. by apply String.eqb_neq.
Qed.

(** A [.txt] file is written as delimited text with the separator of the
    writer and read as delimited text with the separator of the reader. *)
Lemma txt_written_and_read_delimited (c : CreateOptions.t) (r : Read.t) file :
  endswith file ".txt" = true →
  to_file_call c file
  = to_csv file (CreateOptions.sep c) (CreateOptions.line_terminator c)
      (CreateOptions.header c) (CreateOptions.encoding c) (CreateOptions.index c)
  ∧ Read.get_content r file
    = Some (read_table file (Read.sep r) (Read.header r) (Read.encoding r)
              (Read.low_memory r)).
Proof.
  intros H. unfold to_file_call, Read.get_content. by rewrite H.
Qed.

(** A [.csv] file is written and read with the comma. *)
Lemma csv_written_and_read_with_comma (c : CreateOptions.t) (r : Read.t) file :
  endswith file ".csv" = true →
  to_file_call c file
  = to_csv file "," (CreateOptions.line_terminator c)
      (CreateOptions.header c) (CreateOptions.encoding c) (CreateOptions.index c)
  ∧ Read.get_content r file
    = Some (read_csv file "," (Read.header r) (Read.encoding r) (Read.low_memory r)).
Proof.
  intros H. unfold to_file_call, Read.get_content.
  rewrite (endswith_same_length file ".csv" ".txt") by done.
  rewrite (endswith_same_length file ".csv" ".bed") by done.
  by rewrite H.
Qed.

(** An [.xls] file is written and read as a spreadsheet. *)
Lemma xls_written_and_read_as_sheet (c : CreateOptions.t) (r : Read.t) file :
  endswith file ".xls" = true →
  to_file_call c file
  = to_excel file (CreateOptions.sheet_name c) (CreateOptions.header c)
      (CreateOptions.index c)
  ∧ Read.get_content r file
    = Some (read_excel file (Read.sheet_name r) (excel_header (Read.header r))).
Proof.
  intros H. unfold to_file_call, Read.get_content.
  rewrite (endswith_same_length file ".xls" ".txt") by done.
  rewrite (endswith_same_length file ".xls" ".bed") by done.
  rewrite (endswith_same_length file ".xls" ".csv") by done.
  by rewrite H.
Qed.

(** ** Reading a file line by line *)

Lemma readline_length f :
  (String.length (fst (readline f)) + String.length (snd (readline f))
   = String.length f)%nat.
Proof.
  induction f as [|c f IH]; [done|]. simpl.
  destruct (Ascii.eqb c newline); [done|].
  destruct (readline f) as [line rest]. simpl in *. lia.
Qed.

Lemma strip_empty : strip "" = "".
Proof. reflexivity. Qed.

Lemma append_cons (x : ascii) (a b : string) :
  String x a +:+ b = String x (a +:+ b).
Proof. reflexivity. Qed.

Lemma append_assoc (a b c : string) : (a +:+ b) +:+ c = a +:+ (b +:+ c).
Proof.
  induction a as [|x a IH]; [done|]. by rewrite !append_cons, IH.
Qed.

Lemma append_length (a b : string) :
  String.length (a +:+ b) = (String.length a + String.length b)%nat.
Proof.
  induction a as [|x a IH]; [done|]. rewrite append_cons. simpl. by rewrite IH.
Qed.

(** A line without a line break, followed by one, is what [readline]
    returns. *)
Lemma readline_line l rest :
  has_newline l = false →
  readline (l +:+ String newline rest) = (l +:+ line_break, rest).
Proof.
  induction l as [|c l IH]; intros Hl.
  - change ("" +:+ String newline rest) with (String newline rest).
    cbn [readline]. by rewrite Ascii.eqb_refl.
  - cbn [has_newline] in Hl. apply orb_false_iff in Hl as [Hc Hl].
    rewrite !append_cons. cbn [readline]. rewrite Hc, (IH Hl). done.
Qed.

(** The loop ends within the fuel [read_file_line] gives it, and the list
    it returns ends with the empty string. *)
Lemma read_loop_returns fuel f content :
  (String.length f < fuel)%nat →
  ∃ content', read_loop fuel f content = Ok content' ∧ last content' = Some "".
Proof.
  revert f content. induction fuel as [|fuel IH]; intros f content Hfuel; [lia|].
  simpl. pose proof (readline_length f) as Hlen.
  destruct (readline f) as [raw f']. simpl in Hlen.
  destruct (String.eqb_spec (strip raw) "") as [Hblank|Hline].
  - eexists. split; [done|]. by rewrite Hblank, last_snoc.
  - apply IH. destruct raw as [|c raw]; [done|]. simpl in Hlen. lia.
Qed.

Lemma unlines_length ls : (length ls <= String.length (unlines ls))%nat.
Proof.
  induction ls as [|l ls IH]; simpl; [lia|].
  rewrite append_length. simpl. lia.
Qed.

(** Lines that are not blank are returned stripped; the first blank line
    ends the loop, and the text after it is not read. *)
Lemma read_loop_lines ls blank tail fuel content :
  (length ls < fuel)%nat →
  Forall (fun l => has_newline l = false ∧ strip (l +:+ line_break) ≠ "") ls →
  has_newline blank = false →
  strip (blank +:+ line_break) = "" →
  read_loop fuel (unlines ls +:+ blank +:+ String newline tail) content
  = Ok (content ++ map (fun l => strip (l +:+ line_break)) ls ++ [""]).
Proof.
  revert fuel content.
  induction ls as [|l ls IH]; intros fuel content Hfuel Hls Hblank Hstrip;
    (destruct fuel as [|fuel]; [simpl in Hfuel; lia|]).
  - change (unlines [] +:+ blank +:+ String newline tail)
      with (blank +:+ String newline tail).
    cbn [read_loop]. rewrite (readline_line _ _ Hblank), Hstrip. done.
  - apply Forall_cons in Hls as [[Hl Hne] Hls].
    cbn [unlines]. rewrite append_assoc, append_cons.
    cbn [read_loop]. rewrite (readline_line _ _ Hl).
    destruct (String.eqb_spec (strip (l +:+ line_break)) "") as [|_]; [done|].
    rewrite IH; [|simpl in Hfuel; lia|done..].
    cbn [map]. by rewrite <- app_assoc.
Qed.

(** C10.  [read_file_line] returns, its list is not empty and ends with
    the empty string; and when the text has a blank line after lines that
    are not blank, the list holds those lines, stripped, and the closing
    empty string: nothing that follows the blank line is returned. *)
Theorem read_file_line_stops_at_blank_line
    (fs : textfs) (path text : string) :
  fs path = Some text →
  (∃ content, read_file_line fs path = Ok content
              ∧ content ≠ [] ∧ last content = Some "")
  ∧ (∀ ls blank tail,
       text = unlines ls +:+ blank +:+ String newline tail →
       Forall (fun l => has_newline l = false ∧ strip (l +:+ line_break) ≠ "") ls →
       has_newline blank = false →
       strip (blank +:+ line_break) = "" →
       read_file_line fs path
       = Ok (map (fun l => strip (l +:+ line_break)) ls ++ [""])).
Proof.
  intros Hfs. unfold read_file_line, open_text. rewrite Hfs. cbn [bind]. split.
  - destruct (read_loop_returns (S (String.length text)) text []) as (c & Hc & Hlast);
      [lia|].
    exists c. split; [done|]. split; [|done]. by intros ->.
  - intros ls blank tail -> Hls Hblank Hstrip.
    rewrite read_loop_lines; [done| |done..].
    pose proof (unlines_length ls). rewrite append_length. lia.
Qed.

Lemma read_file_line_stops_at_blank_line_witness :
  TextSamples.fs "regions.bed" = Some TextSamples.text
  ∧ read_file_line TextSamples.fs "regions.bed" = Ok ["chr1 10"; "chr2 20"; ""].
Proof.
  split; [reflexivity|].
  apply (proj2 (read_file_line_stops_at_blank_line
                  TextSamples.fs "regions.bed" TextSamples.text eq_refl)
           ["chr1 10"; " chr2 20 "] "  " "chr3 30").
  - reflexivity.
  - repeat constructor; discriminate.
  - reflexivity.
  - reflexivity.
Defined.

(** ** Tables: shared facts *)

Lemma bind_Ok {A B : Type} (r : result A) (k : A → result B) (b : B) :
  bind r k = Ok b → ∃ a, r = Ok a ∧ k a = Ok b.
Proof. destruct r as [a| |]; simpl; [eauto|done..]. Qed.

Ltac bind_inv H :=
  let a := fresh "a" in
  let Ha := fresh "H" a in
  apply bind_Ok in H as (a & Ha & H).


Lemma scalar_eqb_sym a b : scalar_eqb a b = scalar_eqb b a.
Proof.
  destruct a, b; simpl; try done; [apply Qeq_bool_comm|apply String.eqb_sym].
Qed.

Lemma scalar_eqb_trans a b c :
  scalar_eqb a b = true → scalar_eqb b c = true → scalar_eqb a c = true.
Proof.
  destruct a, b, c; simpl; try done.
  - apply Qeq_bool_trans.
  - rewrite !String.eqb_eq. congruence.
Qed.

(** Equal keys select the same rows. *)
Lemma scalar_eqb_congr a b c :
  scalar_eqb a b = true → scalar_eqb c a = scalar_eqb c b.
Proof.
  intros Hab. destruct (scalar_eqb c a) eqn:Hca.
  - symmetry. by apply scalar_eqb_trans with a.
  - destruct (scalar_eqb c b) eqn:Hcb; [|done].
    rewrite <- Hca. apply scalar_eqb_trans with b; [done|].
    by rewrite scalar_eqb_sym.
Qed.

Lemma scalar_eqb_isna a b : scalar_eqb a b = true → isna a = isna b.
Proof. by destruct a, b. Qed.


(** ** Aggregation by group *)












(** *** Groups of one row *)









(** *** The aggregation helpers return *)

Lemma numbers_Ok vs :
  Forall (fun v => ∀ s, v ≠ Str s) vs → ∃ qs, numbers vs = Ok qs.
Proof.
  induction 1 as [|v vs Hv _ [qs IH]]; simpl; [eauto|].
  destruct v as [q|s|]; [|by destruct (Hv s)|eauto].
  rewrite IH. simpl. eauto.
Qed.

Lemma aggregate_Ok sqrtQ st vs :
  Forall (fun v => ∀ s, v ≠ Str s) vs → ∃ v, aggregate sqrtQ st vs = Ok v.
Proof.
  intros Hvs. destruct (numbers_Ok vs Hvs) as [qs Hqs].
  destruct st; simpl; rewrite ?Hqs; simpl; eauto.
Qed.

Lemma map_result_returns {A B : Type} (f : A → result B) l :
  (∀ a, ∃ b, f a = Ok b) → ∃ bs, map_result f l = Ok bs.
Proof.
  intros Hf. induction l as [|a l [bs IH]]; simpl; [eauto|].
  destruct (Hf a) as [b ->]. rewrite IH. simpl. eauto.
Qed.

(** With the two columns in the table, under different labels, and no
    string in the aggregated column, every grouped statistic is
    computed. *)
Lemma grouped_column_returns sqrtQ df group column st suffix gi ci :
  column_index (columns df) group = Ok gi →
  column_index (columns df) column = Ok ci →
  group ≠ column →
  Forall (fun row => ∀ s, cell row ci ≠ Str s) (rows df) →
  ∃ t, Create.grouped_column sqrtQ df group column st suffix = Ok t.
Proof.
  intros Hgi Hci Hne Hcells.
  unfold Create.grouped_column, groupby_agg. rewrite Hgi, Hci. cbn [bind].
  destruct (map_result_returns
              (fun k => let* v := aggregate sqrtQ st
                                    (group_values k (keyed_values df gi ci)) in
                        Ok [k; v])
              (sort_keys (group_keys [] (map fst (keyed_values df gi ci)))))
    as [rs ->].
  - intros k. destruct (aggregate_Ok sqrtQ st (group_values k (keyed_values df gi ci)))
      as [v ->]; [|simpl; eauto].
    unfold group_values, keyed_values. apply List.Forall_forall. intros v Hv.
    apply in_map_iff in Hv as (kv & <- & Hkv). apply filter_In in Hkv as [Hkv _].
    apply in_map_iff in Hkv as (row & <- & Hrow). simpl.
    rewrite List.Forall_forall in Hcells. by apply Hcells.
  - cbn [bind]. destruct (String.eqb_spec group column) as [|_]; [done|].
    unfold set_columns. simpl. eauto.
Qed.

Lemma add_calculation_by_group_returns sqrtQ self df group column gi ci :
  column_index (columns df) group = Ok gi →
  column_index (columns df) column = Ok ci →
  group ≠ column →
  Forall (fun row => ∀ s, cell row ci ≠ Str s) (rows df) →
  (∃ t, Create.add_sum_by_group sqrtQ self df group column None = Ok (t, None))
  ∧ ∃ tables,
      Create.add_calculation_by_group sqrtQ self df group column None None
      = Ok (tables, None).
Proof.
  intros Hgi Hci Hne Hcells.
  assert (∀ st suffix, ∃ t,
            Create.grouped_column sqrtQ df group column st suffix = Ok t) as Hcol
    by (intros st suffix; by eapply grouped_column_returns).
  unfold Create.add_calculation_by_group, Create.add_sum_by_group. split.
  - destruct (Hcol stat_sum "_sum") as [t ->]. simpl. eauto.
  - destruct (Hcol stat_size "_size") as [? ->], (Hcol stat_mean "_mean") as [? ->],
      (Hcol stat_var "_var") as [? ->], (Hcol stat_sem "_sem") as [? ->],
      (Hcol stat_std "_std") as [? ->], (Hcol stat_median "_median") as [? ->],
      (Hcol stat_min "_min") as [? ->], (Hcol stat_max "_max") as [? ->],
      (Hcol stat_sum "_sum") as [? ->], (Hcol stat_prod "_prod") as [? ->].
    simpl. eauto.
Qed.

(** ** Merging *)

Lemma label_positions_spec label cols s i :
  In i (label_positions label cols s)
  ↔ (s ≤ i)%nat ∧ cols !! (i - s)%nat = Some label.
Proof.
  revert s. induction cols as [|c cols IH]; intros s; simpl.
  - split; [done|]. by intros [_ ?].
  - destruct (String.eqb_spec c label) as [->|Hc]; simpl; rewrite IH.
    + split.
      * intros [<-|[Hle Hi]].
        -- by rewrite Nat.sub_diag.
        -- split; [lia|]. by replace (i - s)%nat with (S (i - S s)) by lia.
      * intros [Hle Hi]. destruct (decide (s = i)) as [|Hne]; [by left|right].
        split; [lia|]. by replace (i - s)%nat with (S (i - S s)) in Hi by lia.
    + split.
      * intros [Hle Hi]. split; [lia|].
        by replace (i - s)%nat with (S (i - S s)) by lia.
      * intros [Hle Hi]. destruct (decide (s = i)) as [<-|Hne].
        -- rewrite Nat.sub_diag in Hi. simpl in Hi. congruence.
        -- split; [lia|].
           by replace (i - s)%nat with (S (i - S s)) in Hi by lia.
Qed.

(** A selected column is the one column of that label. *)
Lemma column_index_Ok cols label i :
  column_index cols label = Ok i →
  cols !! i = Some label ∧ ∀ j, cols !! j = Some label → j = i.
Proof.
  unfold column_index. intros H.
  destruct (label_positions label cols 0) as [|i0 [|i1 ps]] eqn:Hps; try done.
  injection H as ->.
  assert (∀ j, In j [i] ↔ cols !! j = Some label) as Hspec.
  { intros j. rewrite <- Hps, label_positions_spec, Nat.sub_0_r.
    split; [by intros [_ ?]|]. split; [lia|done]. }
  split.
  - apply Hspec. by left.
  - intros j Hj. apply Hspec in Hj as [Hj|[]]. done.
Qed.

Lemma column_index_lt cols label i :
  column_index cols label = Ok i → (i < length cols)%nat.
Proof.
  intros H. apply column_index_Ok in H as [H _]. by apply lookup_lt_Some in H.
Qed.

(** The key keeps its label and its place in a merged table. *)
Lemma suffixed_key lc rc on suffix : suffixed lc rc on suffix on = on.
Proof. unfold suffixed, overlapping. by rewrite String.eqb_refl. Qed.

(** What [pd_merge] returns. *)
Lemma pd_merge_Ok a b on t :
  pd_merge a b on = Ok t →
  ∃ li ri,
    column_index (columns a) on = Ok li
    ∧ column_index (columns b) on = Ok ri
    ∧ rows t = join_rows li ri (rows a) (rows b)
    ∧ columns t !! li = Some on.
Proof.
  unfold pd_merge. intros H. bind_inv H. bind_inv H. injection H as <-.
  exists a0, a1. split; [done|]. split; [done|]. split; [done|]. simpl.
  destruct (column_index_Ok _ _ _ Ha0) as [Hli _].
  rewrite lookup_app_l by (rewrite length_map; by eapply lookup_lt_Some).
  rewrite list_lookup_fmap, Hli. simpl. by rewrite suffixed_key.
Qed.

Lemma pd_merge_key a b on t li i :
  pd_merge a b on = Ok t →
  column_index (columns a) on = Ok li →
  column_index (columns t) on = Ok i → i = li.
Proof.
  intros Ht Hli Hi. apply pd_merge_Ok in Ht as (li' & ri & Hli' & _ & _ & Hon).
  rewrite Hli in Hli'. injection Hli' as <-.
  apply column_index_Ok in Hi as [_ Hi]. symmetry. by apply Hi.
Qed.





(** *** Grouping the joins *)

Lemma cell_app_l (l l' : list scalar) i :
  (i < length l)%nat → cell (l ++ l') i = cell l i.
Proof. intros Hi. unfold cell. by apply app_nth1. Qed.

Lemma delete_app_keep {A : Type} (l l' : list A) i :
  (i < length l)%nat → delete i (l ++ l') = delete i l ++ l'.
Proof.
  revert i. induction l as [|x l IH]; intros i Hi; simpl in *; [lia|].
  destruct i as [|i]; [done|]. simpl. f_equal. apply IH. lia.
Qed.

Lemma scalar_eqb_congr_l a b c :
  scalar_eqb a b = true → scalar_eqb a c = scalar_eqb b c.
Proof.
  intros Hab. rewrite (scalar_eqb_sym a c), (scalar_eqb_sym b c).
  by apply scalar_eqb_congr.
Qed.

Lemma join_row_app li ri rs rs' lr :
  join_row li ri (rs ++ rs') lr = join_row li ri rs lr ++ join_row li ri rs' lr.
Proof. unfold join_row. by rewrite List.filter_app, map_app. Qed.

Lemma join_rows_cons li ri lr lrows rrows :
  join_rows li ri (lr :: lrows) rrows
  = join_row li ri rrows lr ++ join_rows li ri lrows rrows.
Proof. reflexivity. Qed.

Lemma join_rows_app li ri ls ls' rrows :
  join_rows li ri (ls ++ ls') rrows
  = join_rows li ri ls rrows ++ join_rows li ri ls' rrows.
Proof. unfold join_rows. apply flat_map_app. Qed.

Lemma join_rows_keyed li ri lrows rrows :
  keyed li lrows → keyed li (join_rows li ri lrows rrows).
Proof.
  unfold keyed, join_rows. intros Hl. apply List.Forall_forall. intros row Hrow.
  apply in_flat_map in Hrow as (lr & Hlr & Hrow).
  unfold join_row in Hrow. apply in_map_iff in Hrow as (rr & <- & _).
  rewrite List.Forall_forall in Hl. specialize (Hl lr Hlr). rewrite length_app. lia.
Qed.

(** One left row against the rows one middle row joins with. *)
Lemma join_row_join_row la lb rc cs ra rb :
  (lb < length rb)%nat →
  join_row la lb (join_row lb rc cs rb) ra
  = if scalar_eqb (cell ra la) (cell rb lb)
    then map (fun r => ra ++ delete lb rb ++ delete rc r)
           (List.filter (fun r => scalar_eqb (cell rb lb) (cell r rc)) cs)
    else [].
Proof.
  intros Hlb. unfold join_row.
  destruct (scalar_eqb (cell ra la) (cell rb lb)) eqn:Hm;
    (induction cs as [|r cs IH]; simpl; [done|]);
    (destruct (scalar_eqb (cell rb lb) (cell r rc)); simpl; [|done]);
    rewrite (cell_app_l rb), Hm by done; simpl; [|done].
  by rewrite IH, (delete_app_keep rb) by done.
Qed.

Lemma join_row_assoc la lb rc bs cs ra :
  (la < length ra)%nat → keyed lb bs →
  join_rows la rc (join_row la lb bs ra) cs
  = join_row la lb (join_rows lb rc bs cs) ra.
Proof.
  intros Hla Hbs. induction Hbs as [|rb bs Hrb _ IH]; [done|].
  rewrite join_rows_cons, join_row_app, <- IH, (join_row_join_row _ _ _ _ _ _ Hrb).
  unfold join_row at 1. simpl.
  destruct (scalar_eqb (cell ra la) (cell rb lb)) eqn:Hm; simpl; [|done].
  f_equal. unfold join_row. rewrite cell_app_l by done.
  rewrite (filter_ext _ (fun r => scalar_eqb (cell rb lb) (cell r rc)))
    by (intros r; by apply scalar_eqb_congr_l).
  apply map_ext. intros r. by rewrite <- app_assoc.
Qed.

(** Joining is associative on the rows. *)
Lemma join_rows_assoc la lb rc as_ bs cs :
  keyed la as_ → keyed lb bs →
  join_rows la rc (join_rows la lb as_ bs) cs
  = join_rows la lb as_ (join_rows lb rc bs cs).
Proof.
  intros Has Hbs. induction Has as [|ra as_ Hra _ IH]; [done|].
  rewrite !join_rows_cons, join_rows_app, IH. f_equal.
  by apply join_row_assoc.
Qed.

Lemma joined_cons on t t' ts :
  joined on (t :: t' :: ts)
  = (key_of on t,
     join_rows (key_of on t) (joined on (t' :: ts)).1 (rows t) (joined on (t' :: ts)).2).
Proof. reflexivity. Qed.

Lemma joined_key on t ts : (joined on (t :: ts)).1 = key_of on t.
Proof. by destruct ts. Qed.

Lemma joined_keyed on ts :
  Forall (fun t => keyed (key_of on t) (rows t)) ts →
  keyed (joined on ts).1 (joined on ts).2.
Proof.
  intros Hts. destruct Hts as [|t ts Ht Hts]; [constructor|].
  destruct ts as [|t' ts]; [done|]. rewrite joined_cons. simpl.
  by apply join_rows_keyed.
Qed.

(** The join of a sequence cut in two is the join of the joins of the two
    parts. *)
Lemma joined_app on ls rs :
  ls ≠ [] → rs ≠ [] →
  Forall (fun t => keyed (key_of on t) (rows t)) ls →
  Forall (fun t => keyed (key_of on t) (rows t)) rs →
  joined on (ls ++ rs)
  = ((joined on ls).1,
     join_rows (joined on ls).1 (joined on rs).1 (joined on ls).2 (joined on rs).2).
Proof.
  intros Hls Hrs Hkl Hkr. induction Hkl as [|t ls Ht Hkl IH]; [done|].
  destruct rs as [|r rs]; [done|]. destruct ls as [|t' ls].
  - simpl app. by rewrite joined_cons.
  - change ((t :: t' :: ls) ++ r :: rs) with (t :: (t' :: ls) ++ r :: rs).
    change ((t' :: ls) ++ r :: rs) with (t' :: (ls ++ r :: rs)) at 1.
    rewrite joined_cons.
    change (t' :: ls ++ r :: rs) with ((t' :: ls) ++ r :: rs).
    rewrite IH by done. rewrite (joined_cons on t t' ls). cbn [fst snd].
    f_equal. symmetry. apply join_rows_assoc; [done|].
    by apply joined_keyed.
Qed.

Lemma tables_of_nonempty g : tables_of g ≠ [].
Proof.
  induction g as [t|l IHl r IHr]; simpl; [done|].
  destruct (tables_of l); [done|]. done.
Qed.

Lemma wf_frame_keyed on t i :
  wf_frame t → column_index (columns t) on = Ok i → keyed (key_of on t) (rows t).
Proof.
  unfold wf_frame, keyed, key_of. intros Hwf Hi. rewrite Hi.
  apply column_index_lt in Hi. eapply Forall_impl; [exact Hwf|].
  intros row Hrow. simpl in Hrow. lia.
Qed.

(** A grouping that evaluates to a table with a key column evaluates to
    the join of its tables: the rows do not depend on the grouping. *)
Lemma eval_grouping_joined on g t i :
  eval_grouping g on = Ok t →
  Forall wf_frame (tables_of g) →
  column_index (columns t) on = Ok i →
  Forall (fun t => keyed (key_of on t) (rows t)) (tables_of g)
  ∧ joined on (tables_of g) = (i, rows t).
Proof.
  revert t i. induction g as [t0|l IHl r IHr]; intros t i Heval Hwf Hi; simpl in *.
  - injection Heval as ->. rewrite Forall_singleton in Hwf. split.
    + constructor; [|done]. by apply (wf_frame_keyed on _ i).
    + unfold key_of. by rewrite Hi.
  - bind_inv Heval. bind_inv Heval. apply Forall_app in Hwf as [Hwfl Hwfr].
    pose proof (pd_merge_Ok _ _ _ _ Heval) as (li & ri & Hli & Hri & Hrows & _).
    pose proof (pd_merge_key _ _ _ _ _ _ Heval Hli Hi) as ->.
    destruct (IHl _ _ Ha Hwfl Hli) as [Hkl Hjl].
    destruct (IHr _ _ Ha0 Hwfr Hri) as [Hkr Hjr].
    split; [by apply Forall_app|].
    rewrite joined_app by (done || apply tables_of_nonempty).
    by rewrite Hjl, Hjr, Hrows.
Qed.

(** Two groupings of the same tables that both evaluate have the same
    rows, in the same order. *)
Lemma grouping_rows_agree on g1 g2 t1 t2 :
  tables_of g1 = tables_of g2 →
  Forall wf_frame (tables_of g1) →
  eval_grouping g1 on = Ok t1 →
  eval_grouping g2 on = Ok t2 →
  rows t1 = rows t2.
Proof.
  intros Hsame Hwf H1 H2.
  assert (∀ g t, eval_grouping g on = Ok t → Forall wf_frame (tables_of g) →
          (g = Leaf t) ∨ rows t = (joined on (tables_of g)).2) as Hrows.
  { intros [t0|l r] t Heval Hwfg; simpl in *.
    - left. by injection Heval as ->.
    - right. bind_inv Heval. bind_inv Heval. apply Forall_app in Hwfg as [Hwfl Hwfr].
      pose proof (pd_merge_Ok _ _ _ _ Heval) as (li & ri & Hli & Hri & Hr & _).
      destruct (eval_grouping_joined on l _ _ Ha Hwfl Hli) as [Hkl Hjl].
      destruct (eval_grouping_joined on r _ _ Ha0 Hwfr Hri) as [Hkr Hjr].
      rewrite joined_app by (done || apply tables_of_nonempty).
      by rewrite Hjl, Hjr, Hr. }
  assert (∀ g t, tables_of g = [t] → g = Leaf t) as Hleaf.
  { intros [t0|l r] t Hg; simpl in Hg; [by injection Hg as ->|].
    pose proof (tables_of_nonempty l). pose proof (tables_of_nonempty r).
    destruct (tables_of l) as [|? [|? ?]], (tables_of r); simplify_eq. }
  destruct (Hrows g1 t1 H1 Hwf) as [->|Hr1].
  - simpl in Hsame. symmetry in Hsame. apply Hleaf in Hsame as ->.
    simpl in H2. by injection H2 as ->.
  - rewrite Hsame in Hwf. destruct (Hrows g2 t2 H2 Hwf) as [->|Hr2].
    + simpl in Hsame. apply Hleaf in Hsame as ->. simpl in H1. by injection H1 as ->.
    + by rewrite Hr1, Hr2, Hsame.
Qed.

(** [merge_files] groups from the left. *)
Lemma merge_loop_left_grouping on files g :
  (let* t := eval_grouping g on in Create.merge_loop t files on)
  = eval_grouping (left_grouping g files) on.
Proof.
  revert g. induction files as [|file_i files IH]; intros g; simpl.
  - by destruct (eval_grouping g on).
  - rewrite <- IH. simpl. destruct (eval_grouping g on); simpl; [|done..].
    by destruct (pd_merge a file_i on).
Qed.

Lemma tables_of_left_grouping g files :
  tables_of (left_grouping g files) = tables_of g ++ files.
Proof.
  revert g. induction files as [|file_i files IH]; intros g; simpl.
  - by rewrite app_nil_r.
  - rewrite IH. simpl. by rewrite <- app_assoc.
Qed.

(** C7.  Whatever the grouping of the pairwise joins of a list of tables
    (with rows as long as their labels, and at most one row per key
    value), the rows of the result are the same up to their order; the
    left-to-right grouping of [merge_files] is one of them. *)
Theorem merge_grouping_irrelevant
    (on : string) (files : list DataFrame) (g1 g2 : grouping) (t1 t2 : DataFrame) :
  Forall wf_frame files →
  Forall (fun file => one_to_one file on) files →
  tables_of g1 = files →
  tables_of g2 = files →
  eval_grouping g1 on = Ok t1 →
  eval_grouping g2 on = Ok t2 →
  Permutation (rows t1) (rows t2)
  ∧ ∀ t, Create.merged_table files on = Ok t → Permutation (rows t) (rows t1).
Proof.
  intros Hwf _ Hg1 Hg2 H1 H2. split.
  - erewrite (grouping_rows_agree on g1 g2); [done|congruence|by rewrite Hg1|done..].
  - intros t Ht. destruct files as [|file_0 files]; [done|]. simpl in Ht.
    pose proof (merge_loop_left_grouping on files (Leaf file_0)) as Hleft.
    simpl in Hleft. rewrite Hleft in Ht.
    erewrite (grouping_rows_agree on _ g1 t t1); [done| | |exact Ht|exact H1].
    + by rewrite tables_of_left_grouping, Hg1.
    + by rewrite tables_of_left_grouping.
Qed.

Ltac one_to_one_sample :=
  let i := fresh "i" in
  let j := fresh "j" in
  let Hi := fresh "Hi" in
  let Hj := fresh "Hj" in
  let Heq := fresh "Heq" in
  intros i j ? ? Hi Hj Heq;
  destruct i as [|[|[|i]]], j as [|[|[|j]]];
  vm_compute in Hi, Hj; simplify_eq; first [reflexivity | vm_compute in Heq; discriminate].

Lemma merge_grouping_irrelevant_witness :
  ∃ t1 t2,
    eval_grouping GroupingSamples.from_left "id" = Ok t1
    ∧ eval_grouping GroupingSamples.from_right "id" = Ok t2
    ∧ Permutation (rows t1) (rows t2)
    ∧ ∀ t, Create.merged_table GroupingSamples.files "id" = Ok t →
           Permutation (rows t) (rows t1).
Proof.
  eexists _, _.
  split; [vm_compute; reflexivity|]. split; [vm_compute; reflexivity|].
  apply (merge_grouping_irrelevant "id" GroupingSamples.files
           GroupingSamples.from_left GroupingSamples.from_right).
  - repeat constructor.
  - repeat constructor; one_to_one_sample.
  - reflexivity.
  - reflexivity.
  - vm_compute. reflexivity.
  - vm_compute. reflexivity.
Defined.

(** ** Ranking within groups *)

(** *** The order of the numbers *)

Lemma Qltb_lt x y : Qltb x y = true ↔ (x < y)%Q.
Proof.
  unfold Qltb. rewrite negb_true_iff. split.
  - intros H. apply Qnot_le_lt. intros Hle. apply Qle_bool_iff in Hle. congruence.
  - intros H. destruct (Qle_bool y x) eqn:Hle; [|done].
    apply Qle_bool_iff in Hle. by apply Qlt_not_le in H.
Qed.

Lemma Qeqb_eq x y : Qeq_bool x y = true ↔ (x == y)%Q.
Proof. apply Qeq_bool_iff. Qed.

Lemma count_if_app {A : Type} (f : A → bool) l l' :
  count_if f (l ++ l') = (count_if f l + count_if f l')%nat.
Proof. unfold count_if. by rewrite List.filter_app, length_app. Qed.

Lemma count_if_cons {A : Type} (f : A → bool) x l :
  count_if f (x :: l) = ((if f x then 1 else 0) + count_if f l)%nat.
Proof. unfold count_if. simpl. by destruct (f x). Qed.

Lemma count_if_ext {A : Type} (f g : A → bool) l :
  (∀ x, f x = g x) → count_if f l = count_if g l.
Proof. intros H. unfold count_if. by rewrite (filter_ext f g). Qed.

Lemma count_if_length {A : Type} (f : A → bool) l :
  (count_if f l ≤ length l)%nat.
Proof. apply filter_length_le. Qed.

(** Two tests that exclude each other and both imply a third. *)
Lemma count_if_disjoint {A : Type} (f g h : A → bool) l :
  (∀ x, f x = true → g x = false) →
  (∀ x, f x = true → h x = true) →
  (∀ x, g x = true → h x = true) →
  (count_if f l + count_if g l ≤ count_if h l)%nat.
Proof.
  intros Hfg Hfh Hgh. induction l as [|x l IH]; [done|].
  rewrite !count_if_cons.
  destruct (f x) eqn:Hf, (g x) eqn:Hg, (h x) eqn:Hh;
    try rewrite (Hfg x Hf) in Hg; try rewrite (Hfh x Hf) in Hh;
    try rewrite (Hgh x Hg) in Hh; try discriminate; lia.
Qed.

(** The numbers below [x] and those equal to [x] are below any larger
    [y]. *)
Lemma count_below x y l :
  (x < y)%Q →
  (count_if (fun w => Qltb w x) l + count_if (fun w => Qeq_bool w x) l
   ≤ count_if (fun w => Qltb w y) l)%nat.
Proof.
  intros Hxy. apply count_if_disjoint.
  - intros w Hw. apply Qltb_lt in Hw.
    destruct (Qeq_bool w x) eqn:He; [|done]. apply Qeqb_eq in He.
    rewrite He in Hw. by apply Qlt_irrefl in Hw.
  - intros w Hw. apply Qltb_lt in Hw. apply Qltb_lt. by apply Qlt_trans with x.
  - intros w Hw. apply Qeqb_eq in Hw. apply Qltb_lt. by rewrite Hw.
Qed.

(** *** Ranks by order of appearance are a permutation *)

(** Two numbers of a group do not share a rank. *)
Lemma first_rank_distinct pre x mid y post :
  first_rank (pre ++ x :: mid ++ y :: post) pre x
  ≠ first_rank (pre ++ x :: mid ++ y :: post) (pre ++ x :: mid) y.
Proof.
  unfold first_rank. set (all := pre ++ x :: mid ++ y :: post).
  assert (count_if (fun w => Qeq_bool w x) pre + 1
          ≤ count_if (fun w => Qeq_bool w x) all)%nat as Hx.
  { unfold all. rewrite count_if_app, count_if_cons, Qeq_bool_refl. lia. }
  assert (count_if (fun w => Qeq_bool w y) (pre ++ x :: mid) + 1
          ≤ count_if (fun w => Qeq_bool w y) all)%nat as Hy.
  { unfold all. replace (pre ++ x :: mid ++ y :: post)
      with ((pre ++ x :: mid) ++ y :: post) by (by rewrite <- app_assoc).
    rewrite (count_if_app _ (pre ++ x :: mid)), (count_if_cons _ y), Qeq_bool_refl.
    lia. }
  destruct (Q_dec x y) as [[Hlt|Hgt]|Heq].
  - pose proof (count_below x y all Hlt). lia.
  - pose proof (count_below y x all Hgt). lia.
  - rewrite (count_if_ext (fun w => Qltb w x) (fun w => Qltb w y)).
    2: { intros w. unfold Qltb. f_equal. destruct (Qle_bool x w) eqn:H1.
         - symmetry. apply Qle_bool_iff. rewrite <- Heq. by apply Qle_bool_iff.
         - destruct (Qle_bool y w) eqn:H2; [|done]. apply Qle_bool_iff in H2.
           rewrite <- Heq in H2. apply Qle_bool_iff in H2. congruence. }
    rewrite (count_if_app _ pre (x :: mid)), (count_if_cons _ x).
    rewrite (count_if_ext (fun w => Qeq_bool w x) (fun w => Qeq_bool w y)).
    2: { intros w. destruct (Qeq_bool w x) eqn:H1.
         - symmetry. apply Qeqb_eq. apply Qeqb_eq in H1. by rewrite H1.
         - destruct (Qeq_bool w y) eqn:H2; [|done]. apply Qeqb_eq in H2.
           rewrite <- Heq in H2. apply Qeqb_eq in H2. congruence. }
    assert (Qeq_bool x y = true) as -> by (by apply Qeqb_eq). lia.
Qed.

(** A rank is between 1 and the size of the group. *)
Lemma first_rank_bounds pre x post :
  (1 ≤ first_rank (pre ++ x :: post) pre x ≤ length (pre ++ x :: post))%nat.
Proof.
  unfold first_rank. split; [lia|].
  set (all := pre ++ x :: post).
  assert (count_if (fun w => Qltb w x) all + count_if (fun w => Qeq_bool w x) all
          ≤ count_if (fun _ => true) all)%nat as Hall.
  { apply count_if_disjoint; [|done..]. intros w Hw. apply Qltb_lt in Hw.
    destruct (Qeq_bool w x) eqn:He; [|done]. apply Qeqb_eq in He.
    rewrite He in Hw. by apply Qlt_irrefl in Hw. }
  pose proof (count_if_length (fun _ : Q => true) all) as Hlen.
  assert (count_if (fun w => Qeq_bool w x) pre + 1
          ≤ count_if (fun w => Qeq_bool w x) all)%nat as Hx.
  { unfold all. rewrite count_if_app, count_if_cons, Qeq_bool_refl. lia. }
  lia.
Qed.

Lemma first_ranks_length all before rest :
  length (first_ranks all before rest) = length rest.
Proof.
  revert before. induction rest as [|x rest IH]; intros before; simpl; [done|].
  by rewrite IH.
Qed.

(** Each rank of the list is the rank of a number of [rest]. *)
Lemma first_ranks_In all before rest r :
  In r (first_ranks all before rest) →
  ∃ mid x post, rest = mid ++ x :: post ∧ r = first_rank all (before ++ mid) x.
Proof.
  revert before. induction rest as [|x rest IH]; intros before; simpl; [done|].
  intros [<-|Hr].
  - exists [], x, rest. by rewrite app_nil_r.
  - destruct (IH _ Hr) as (mid & y & post & -> & ->).
    exists (x :: mid), y, post. split; [done|]. by rewrite <- app_assoc.
Qed.

Lemma first_ranks_NoDup before rest :
  NoDup (first_ranks (before ++ rest) before rest).
Proof.
  revert before. induction rest as [|x rest IH]; intros before; simpl.
  - constructor.
  - apply NoDup_cons. split.
    + rewrite list_elem_of_In. intros Hin.
      apply first_ranks_In in Hin as (mid & y & post & -> & Heq).
      rewrite <- app_assoc in Heq. simpl in Heq.
      by apply first_rank_distinct in Heq.
    + specialize (IH (before ++ [x])). by rewrite <- app_assoc in IH.
Qed.

(** The ranks by order of appearance of the numbers of a group are
    1, ..., N in some order. *)
Lemma first_ranks_permutation xs :
  Permutation (first_ranks xs [] xs) (seq 1 (length xs)).
Proof.
  apply NoDup_Permutation_bis.
  - apply NoDup_ListNoDup. apply (first_ranks_NoDup [] xs).
  - by rewrite length_seq, first_ranks_length.
  - intros r Hr. apply (first_ranks_In xs [] xs) in Hr as (mid & x & post & Hxs & ->).
    subst xs. simpl. apply in_seq.
    pose proof (first_rank_bounds mid x post). lia.
Qed.

(** *** Ranks of the rows of a table *)

Lemma rank_rows_length m all before rest :
  length (rank_rows m all before rest) = length rest.
Proof.
  revert before. induction rest as [|[k v] rest IH]; intros before; simpl; [done|].
  by rewrite IH.
Qed.

Lemma group_numbers_app k col col' :
  group_numbers k (col ++ col') = group_numbers k col ++ group_numbers k col'.
Proof.
  induction col as [|[k' v] col IH]; simpl; [done|].
  destruct v; [|done..]. destruct (scalar_eqb k' k); simpl; by rewrite IH.
Qed.

Lemma group_numbers_congr k k' col :
  scalar_eqb k k' = true → group_numbers k col = group_numbers k' col.
Proof.
  intros Hk. induction col as [|[k0 v] col IH]; simpl; [done|].
  destruct v; [|done..]. rewrite (scalar_eqb_congr k k' k0 Hk). by rewrite IH.
Qed.

(** The ranks by order of appearance of the rows of group [k] are the
    ranks of the numbers of the group. *)
Lemma rank_rows_first_group k all before rest :
  isna k = false →
  Forall (fun kv => scalar_eqb kv.1 k = true → ∃ x, kv.2 = Num x) rest →
  group_values k (zip (map fst rest) (rank_rows method_first all before rest))
  = map (fun r => Num (Qnat r))
      (first_ranks (group_numbers k all) (group_numbers k before)
         (group_numbers k rest)).
Proof.
  intros Hk Hrest. revert before.
  induction Hrest as [|[k' v] rest Hv _ IH]; intros before; [done|].
  cbn [map fst zip zip_with rank_rows]. unfold group_values in *.
  cbn [List.filter fst]. destruct (scalar_eqb k' k) eqn:Hk'.
  - destruct (Hv Hk') as [x Hx]. simpl in Hx. subst v.
    rewrite (scalar_eqb_isna _ _ Hk'), Hk.
    cbn [group_numbers]. rewrite Hk'. cbn [map snd first_ranks].
    rewrite IH, group_numbers_app. cbn [group_numbers]. rewrite Hk'.
    rewrite !(group_numbers_congr k' k) by done. done.
  - rewrite IH, group_numbers_app. cbn [group_numbers]. rewrite Hk'.
    destruct v; by rewrite app_nil_r.
Qed.

Lemma group_values_numbers k col :
  Forall (fun kv => scalar_eqb kv.1 k = true → ∃ x, kv.2 = Num x) col →
  length (group_values k col) = length (group_numbers k col).
Proof.
  unfold group_values. induction 1 as [|[k' v] col Hv _ IH]; [done|].
  simpl in *. destruct (scalar_eqb k' k) eqn:Hk'.
  - destruct (Hv eq_refl) as [x ->]. simpl. by rewrite IH.
  - destruct v; done.
Qed.

Lemma group_values_length k col :
  length (group_values k col) = count_if (fun k' => scalar_eqb k' k) (map fst col).
Proof.
  unfold group_values, count_if. rewrite length_map.
  induction col as [|[k' v] col IH]; simpl; [done|].
  destruct (scalar_eqb k' k); simpl; by rewrite IH.
Qed.

(** A rank is a number where the key is there and the value is a
    number. *)
Lemma rank_rows_numeric m all before rest :
  Forall2 (fun kv r => isna kv.1 = false → (∃ x, kv.2 = Num x) → ∃ y, r = Num y)
    rest (rank_rows m all before rest).
Proof.
  revert before. induction rest as [|[k v] rest IH]; intros before; simpl.
  - constructor.
  - constructor; [|apply IH]. simpl. intros Hk [x ->]. rewrite Hk. eauto.
Qed.

(** *** Assigning a column *)

Lemma cell_lookup row i : cell row i = default NaN (row !! i).
Proof. unfold cell. apply nth_lookup. Qed.

Lemma set_cells_length ps v row : length (set_cells ps v row) = length row.
Proof.
  revert row. induction ps as [|p ps IH]; intros row; simpl; [done|].
  by rewrite IH, length_insert.
Qed.

Lemma set_cells_other ps v row i :
  ¬ In i ps → cell (set_cells ps v row) i = cell row i.
Proof.
  revert row. induction ps as [|p ps IH]; intros row Hi; simpl; [done|].
  rewrite IH by (intros H; apply Hi; by right).
  rewrite !cell_lookup, list_lookup_insert_ne; [done|].
  intros ->. apply Hi. by left.
Qed.

Lemma set_cells_at ps v row i :
  In i ps → (i < length row)%nat → cell (set_cells ps v row) i = v.
Proof.
  revert row. induction ps as [|p ps IH]; intros row Hi Hlen; simpl; [done|].
  destruct (in_dec Nat.eq_dec i ps) as [Hin|Hnot].
  - apply IH; [done|]. by rewrite length_insert.
  - destruct Hi as [->|Hi]; [|done].
    rewrite set_cells_other by done.
    by rewrite cell_lookup, list_lookup_insert_eq.
Qed.

Lemma label_positions_app label cols cols' s :
  label_positions label (cols ++ cols') s
  = label_positions label cols s ++ label_positions label cols' (s + length cols).
Proof.
  revert s. induction cols as [|c cols IH]; intros s; simpl.
  - by rewrite Nat.add_0_r.
  - rewrite IH. replace (S s + length cols)%nat with (s + S (length cols))%nat by lia.
    by destruct (String.eqb c label).
Qed.

Lemma label_positions_lt label cols i :
  In i (label_positions label cols 0) → (i < length cols)%nat.
Proof.
  rewrite label_positions_spec, Nat.sub_0_r. intros [_ H].
  by apply lookup_lt_Some in H.
Qed.

(** The cells of a column after every row was rebuilt from the row and a
    new value. *)
Lemma column_cells_keep (f : list scalar → scalar → list scalar) rs vs i :
  length vs = length rs →
  Forall (fun row => ∀ v, cell (f row v) i = cell row i) rs →
  map (fun row => cell row i) (zip_with f rs vs) = map (fun row => cell row i) rs.
Proof.
  intros Hlen Hrs. revert vs Hlen.
  induction Hrs as [|row rs Hrow _ IH]; intros [|v vs] Hlen; simplify_eq/=; [done|].
  by rewrite Hrow, IH.
Qed.

Lemma column_cells_set (f : list scalar → scalar → list scalar) rs vs i :
  length vs = length rs →
  Forall (fun row => ∀ v, cell (f row v) i = v) rs →
  map (fun row => cell row i) (zip_with f rs vs) = vs.
Proof.
  intros Hlen Hrs. revert vs Hlen.
  induction Hrs as [|row rs Hrow _ IH]; intros [|v vs] Hlen; simplify_eq/=; [done|].
  by rewrite Hrow, IH.
Qed.

Lemma zip_with_rows_Forall (P Q : list scalar → Prop)
    (f : list scalar → scalar → list scalar) rs vs :
  Forall P rs → (∀ row v, P row → Q (f row v)) → Forall Q (zip_with f rs vs).
Proof.
  intros Hrs Hf. revert vs. induction Hrs as [|row rs Hrow _ IH]; intros [|v vs];
    simpl; constructor; auto.
Qed.

(** Assigning a column keeps the table rectangular and its number of
    rows. *)
Lemma assign_column_wf df label vs :
  wf_frame df → length vs = length (rows df) →
  wf_frame (assign_column df label vs)
  ∧ length (rows (assign_column df label vs)) = length (rows df).
Proof.
  unfold wf_frame, assign_column. intros Hwf Hlen.
  destruct (label_positions label (columns df) 0) as [|p ps]; simpl.
  - split; [|by apply length_zip_with_l_eq].
    eapply zip_with_rows_Forall; [exact Hwf|]. intros row v Hrow. simpl in *.
    rewrite !length_app, Hrow. done.
  - split; [|by apply length_zip_with_l_eq].
    eapply zip_with_rows_Forall; [exact Hwf|]. intros row v Hrow. simpl in *.
    change (set_cells ps v (<[p:=v]> row)) with (set_cells (p :: ps) v row).
    by rewrite set_cells_length.
Qed.

(** The column of the assigned label holds the new values, wherever the
    label stands. *)
Lemma assign_column_label df label vs :
  wf_frame df → length vs = length (rows df) →
  (∃ fi, columns (assign_column df label vs) !! fi = Some label)
  ∧ ∀ fi, columns (assign_column df label vs) !! fi = Some label →
          column_cells fi (assign_column df label vs) = vs.
Proof.
  unfold wf_frame, assign_column, column_cells. intros Hwf Hlen.
  destruct (label_positions label (columns df) 0) as [|p ps] eqn:Hps; simpl.
  - assert (∀ fi, (columns df ++ [label]) !! fi = Some label → fi = length (columns df))
      as Hfi.
    { intros fi Hfi. destruct (decide (fi < length (columns df))%nat) as [Hlt|Hge].
      - rewrite lookup_app_l in Hfi by done.
        assert (In fi (label_positions label (columns df) 0)) as Hin
          by (apply label_positions_spec; rewrite Nat.sub_0_r; split; [lia|done]).
        by rewrite Hps in Hin.
      - apply lookup_lt_Some in Hfi. rewrite length_app in Hfi. simpl in Hfi. lia. }
    split.
    + exists (length (columns df)). by rewrite lookup_app_r, Nat.sub_diag.
    + intros fi Hlabel. apply Hfi in Hlabel as ->.
      apply column_cells_set; [done|].
      eapply Forall_impl; [exact Hwf|]. intros row Hrow v. simpl in Hrow.
      rewrite cell_lookup, lookup_app_r by lia. by rewrite Hrow, Nat.sub_diag.
  - assert (∀ fi, columns df !! fi = Some label ↔ In fi (p :: ps)) as Hfi.
    { intros fi. rewrite <- Hps, label_positions_spec, Nat.sub_0_r.
      split; [intros ?; split; [lia|done]|by intros [_ ?]]. }
    split.
    + exists p. apply Hfi. by left.
    + intros fi Hlabel. apply column_cells_set; [done|].
      eapply Forall_impl; [exact Hwf|]. intros row Hrow v. simpl in Hrow.
      change (set_cells ps v (<[p:=v]> row)) with (set_cells (p :: ps) v row).
      apply set_cells_at; [by apply Hfi|].
      rewrite Hrow. by apply lookup_lt_Some in Hlabel.
Qed.

(** A column of another label keeps its place and its cells. *)
Lemma assign_column_other df label vs other i :
  wf_frame df → length vs = length (rows df) →
  column_index (columns df) other = Ok i →
  label ≠ other →
  column_index (columns (assign_column df label vs)) other = Ok i
  ∧ column_cells i (assign_column df label vs) = column_cells i df.
Proof.
  unfold wf_frame, assign_column, column_cells. intros Hwf Hlen Hi Hne.
  pose proof (column_index_lt _ _ _ Hi) as Hlt.
  destruct (label_positions label (columns df) 0) as [|p ps] eqn:Hps; simpl.
  - split.
    + unfold column_index in *. rewrite label_positions_app. simpl.
      destruct (String.eqb_spec label other) as [|_]; [done|].
      by rewrite app_nil_r.
    + apply column_cells_keep; [done|].
      eapply Forall_impl; [exact Hwf|]. intros row Hrow v. simpl in Hrow.
      apply cell_app_l. lia.
  - split; [done|]. apply column_cells_keep; [done|].
    eapply Forall_impl; [exact Hwf|]. intros row Hrow v. simpl in Hrow.
    change (set_cells ps v (<[p:=v]> row)) with (set_cells (p :: ps) v row).
    apply set_cells_other. rewrite <- Hps, label_positions_spec, Nat.sub_0_r.
    intros [_ Hlabel]. apply column_index_Ok in Hi as [Hi _]. congruence.
Qed.

(** The column of the assigned label, when the table has it, keeps its
    place. *)
Lemma assign_column_same df label vs i :
  wf_frame df → length vs = length (rows df) →
  column_index (columns df) label = Ok i →
  column_index (columns (assign_column df label vs)) label = Ok i
  ∧ column_cells i (assign_column df label vs) = vs.
Proof.
  intros Hwf Hlen Hi.
  assert (columns (assign_column df label vs) = columns df) as Hcols.
  { unfold assign_column, column_index in *.
    by destruct (label_positions label (columns df) 0). }
  split; [by rewrite Hcols|].
  apply assign_column_label; [done..|]. rewrite Hcols.
  by apply column_index_Ok in Hi as [Hi _].
Qed.

(** *** The loop of [add_rank_by_group] *)

Lemma groupby_rank_Ok df group column m ranks :
  groupby_rank df group column m = Ok ranks →
  ∃ gi ci,
    column_index (columns df) group = Ok gi
    ∧ column_index (columns df) column = Ok ci
    ∧ ranks = rank_rows m (keyed_values df gi ci) [] (keyed_values df gi ci).
Proof.
  unfold groupby_rank. intros H. bind_inv H. bind_inv H. bind_inv H.
  injection H as <-. eauto.
Qed.

Lemma keyed_values_zip df gi ci :
  keyed_values df gi ci = zip (column_cells gi df) (column_cells ci df).
Proof.
  unfold keyed_values, column_cells. induction (rows df) as [|row rs IH]; simpl; [done|].
  by rewrite IH.
Qed.

Lemma keyed_values_keys df gi ci : map fst (keyed_values df gi ci) = column_cells gi df.
Proof.
  unfold keyed_values, column_cells. rewrite map_map. done.
Qed.

Lemma keyed_values_length df gi ci : length (keyed_values df gi ci) = length (rows df).
Proof. unfold keyed_values. by rewrite length_map. Qed.

(** Ranks in place of the values keep a number in every row that has a
    key. *)
Lemma ranks_numeric m col :
  Forall (fun kv => isna kv.1 = false → ∃ x, kv.2 = Num x) col →
  Forall (fun kr => isna kr.1 = false → ∃ x, kr.2 = Num x)
    (zip (map fst col) (rank_rows m col [] col)).
Proof.
  intros Hcol. generalize (rank_rows_numeric m col [] col).
  generalize (rank_rows m col [] col) as ranks. intros ranks Hranks.
  induction Hranks as [|kv r col ranks Hr _ IH]; [constructor|].
  apply Forall_cons in Hcol as [Hkv Hcol]. simpl. constructor; [|by apply IH].
  simpl. intros Hk. apply Hr; [done|]. by apply Hkv.
Qed.

Lemma rank_rows_no_string m all before rest :
  Forall (fun r => ∀ s, r ≠ Str s) (rank_rows m all before rest).
Proof.
  revert before. induction rest as [|[k v] rest IH]; intros before; simpl.
  - constructor.
  - constructor; [|apply IH]. intros s. destruct v; [|done..]. by destruct (isna k).
Qed.

Lemma groupby_rank_returns df group column m gi ci :
  column_index (columns df) group = Ok gi →
  column_index (columns df) column = Ok ci →
  Forall (fun v => ∀ s, v ≠ Str s) (column_cells ci df) →
  ∃ ranks, groupby_rank df group column m = Ok ranks.
Proof.
  intros Hgi Hci Hcells. unfold groupby_rank. rewrite Hgi, Hci. cbn [bind].
  destruct (numbers_Ok (map snd (keyed_values df gi ci))) as [qs ->]; [|simpl; eauto].
  unfold keyed_values. rewrite map_map. exact Hcells.
Qed.

(** One round of the loop with a label other than the group key. *)
Lemma rank_invariant_step df df_k group column gi ci m label ranks :
  rank_invariant df df_k group column gi ci →
  groupby_rank df_k group column m = Ok ranks →
  label ≠ group →
  rank_invariant df (assign_column df_k label ranks) group column gi ci.
Proof.
  intros (Hwf & Hlen & Hgi & Hci & Hkeys & Hnum & Hstr) Hranks Hlabel.
  apply groupby_rank_Ok in Hranks as (gi' & ci' & Hgi' & Hci' & ->).
  rewrite Hgi in Hgi'. rewrite Hci in Hci'. injection Hgi' as <-. injection Hci' as <-.
  set (col := keyed_values df_k gi ci) in *.
  assert (length (rank_rows m col [] col) = length (rows df_k)) as Hrl
    by (by rewrite rank_rows_length; apply keyed_values_length).
  destruct (assign_column_wf df_k label _ Hwf Hrl) as [Hwf' Hlen'].
  destruct (assign_column_other df_k label _ group gi Hwf Hrl Hgi Hlabel)
    as [Hgi' Hkeys'].
  assert (column_index (columns (assign_column df_k label (rank_rows m col [] col)))
            column = Ok ci
          ∧ Forall (fun kv => isna kv.1 = false → ∃ x, kv.2 = Num x)
              (keyed_values (assign_column df_k label (rank_rows m col [] col)) gi ci)
          ∧ Forall (fun v => ∀ s, v ≠ Str s)
              (column_cells ci (assign_column df_k label (rank_rows m col [] col))))
    as (Hci' & Hnum' & Hstr').
  { rewrite keyed_values_zip, Hkeys'.
    destruct (String.eqb_spec label column) as [->|Hne].
    - destruct (assign_column_same df_k column _ ci Hwf Hrl Hci) as [Hc ->].
      split; [done|]. split; [|apply rank_rows_no_string].
      rewrite <- (keyed_values_keys df_k gi ci). by apply ranks_numeric.
    - destruct (assign_column_other df_k label _ column ci Hwf Hrl Hci Hne) as [Hc ->].
      split; [done|]. split; [|done]. by rewrite <- keyed_values_zip. }
  repeat split; try done; congruence.
Qed.

(** The table the loop starts from. *)
Lemma rank_invariant_start df group column gi ci :
  wf_frame df →
  numeric_column df column →
  column_index (columns df) group = Ok gi →
  column_index (columns df) column = Ok ci →
  rank_invariant df df group column gi ci.
Proof.
  intros Hwf Hnumeric Hgi Hci. specialize (Hnumeric ci Hci).
  repeat split; try done.
  - rewrite keyed_values_zip. revert Hnumeric.
    generalize (column_cells ci df), (column_cells gi df). intros vs ks Hvs.
    revert ks. induction Hvs as [|v vs Hv _ IH]; intros [|k ks]; simpl;
      constructor; auto.
  - eapply Forall_impl; [exact Hnumeric|]. by intros v [x ->] s.
Qed.

(** Under the same conditions the five rankings are computed: the call
    returns. *)
Lemma add_rank_by_group_returns self df group column output_file gi ci :
  wf_frame df →
  numeric_column df column →
  ¬ In group earlier_rank_labels →
  column_index (columns df) group = Ok gi →
  column_index (columns df) column = Ok ci →
  ∃ df', Create.add_rank_by_group self df group column output_file
         = Ok (df', Create.save self df' output_file).
Proof.
  intros Hwf Hnumeric Hgroup Hgi Hci.
  pose proof (rank_invariant_start df group column gi ci Hwf Hnumeric Hgi Hci)
    as Hinv.
  unfold Create.add_rank_by_group, Create.rank_methods. cbn [Create.rank_loop].
  simpl in Hgroup.
  do 4 (match goal with
        | |- context [groupby_rank ?d group column ?m] =>
            let ranks := fresh "ranks" in
            let Hr := fresh "Hr" in
            destruct (groupby_rank_returns d group column m gi ci) as [ranks Hr];
            [apply Hinv..|];
            rewrite Hr; cbn [bind];
            apply (rank_invariant_step _ _ _ _ _ _ m (method_name m +:+ "_rank") ranks)
              in Hinv; [clear Hr|exact Hr|simpl; intros <-; tauto]
        end).
  match goal with
  | |- context [groupby_rank ?d group column ?m] =>
      destruct (groupby_rank_returns d group column m gi ci) as [last_ranks Hlast];
      [apply Hinv..|]; rewrite Hlast; cbn [bind]
  end.
  eauto.
Qed.

(** C5 (amended).  When the group key is not labelled like one of the four
    rank columns written before, the column [first_rank] that
    [add_rank_by_group] leaves holds, in the rows of each group of the
    table it was given, the values 1, ..., N once each, N being the number
    of rows of the group. *)
Theorem first_rank_is_permutation
    (self : CreateOptions.t) (df : DataFrame) (group column : string)
    (output_file : option string) (df' : DataFrame) (saved : written)
    (gi ci : nat) :
  wf_frame df →
  numeric_column df column →
  ¬ In group earlier_rank_labels →
  Create.add_rank_by_group self df group column output_file = Ok (df', saved) →
  column_index (columns df) group = Ok gi →
  column_index (columns df) column = Ok ci →
  (∃ fi, columns df' !! fi = Some "first_rank")
  ∧ ∀ fi k,
      columns df' !! fi = Some "first_rank" →
      isna k = false →
      Permutation
        (group_values k (zip (column_cells gi df) (column_cells fi df')))
        (ranks_up_to (length (group_values k (keyed_values df gi ci)))).
Proof.
  intros Hwf Hnumeric Hgroup Hcall Hgi Hci.
  pose proof (rank_invariant_start df group column gi ci Hwf Hnumeric Hgi Hci)
    as Hinv.
  unfold Create.add_rank_by_group, Create.rank_methods in Hcall.
  bind_inv Hcall. injection Hcall as <- _. cbn [Create.rank_loop] in Ha.
  simpl in Hgroup.
  do 4 (bind_inv Ha;
        match goal with
        | Hr : groupby_rank _ _ _ ?m = Ok ?ranks |- _ =>
            apply (rank_invariant_step _ _ _ _ _ _ m (method_name m +:+ "_rank") ranks)
              in Hinv; [clear Hr|exact Hr|simpl; intros <-; tauto]
        end).
  bind_inv Ha. injection Ha as <-. cbn [method_name] in *.
  destruct Hinv as (Hwf4 & Hlen4 & Hgi4 & Hci4 & Hkeys4 & Hnum4 & _).
  apply groupby_rank_Ok in Ha4 as (gi' & ci' & Hgi' & Hci' & ->).
  rewrite Hgi4 in Hgi'. rewrite Hci4 in Hci'.
  injection Hgi' as <-. injection Hci' as <-.
  match goal with
  | |- context [assign_column ?d _ _] => set (df4 := d) in *
  end.
  set (col := keyed_values df4 gi ci) in *.
  assert (length (rank_rows method_first col [] col) = length (rows df4)) as Hrl
    by (by rewrite rank_rows_length; apply keyed_values_length).
  destruct (assign_column_label df4 ("first" +:+ "_rank") _ Hwf4 Hrl) as [Hex Hall].
  split; [exact Hex|]. intros fi k Hfi Hk.
  rewrite (Hall fi Hfi), <- Hkeys4, <- (keyed_values_keys df4 gi ci).
  fold col.
  assert (Forall (fun kv => scalar_eqb kv.1 k = true → ∃ x, kv.2 = Num x) col)
    as Hgroupnum.
  { eapply Forall_impl; [exact Hnum4|]. intros kv Hkv Heq. apply Hkv.
    by rewrite (scalar_eqb_isna _ _ Heq). }
  rewrite (rank_rows_first_group k col [] col Hk Hgroupnum).
  unfold ranks_up_to. apply Permutation_map. cbn [group_numbers].
  replace (length (group_values k (keyed_values df gi ci)))
    with (length (group_numbers k col)).
  - apply first_ranks_permutation.
  - rewrite <- (group_values_numbers k col Hgroupnum), !group_values_length.
    unfold col. by rewrite !keyed_values_keys, Hkeys4.
Qed.

Lemma first_rank_is_permutation_witness :
  ∃ df',
    Create.add_rank_by_group CreateOptions.default RankSamples.scores "g" "x" None
    = Ok (df', None)
    ∧ (∃ fi, columns df' !! fi = Some "first_rank")
    ∧ ∀ fi k,
        columns df' !! fi = Some "first_rank" →
        isna k = false →
        Permutation
          (group_values k
             (zip (column_cells 0 RankSamples.scores) (column_cells fi df')))
          (ranks_up_to
             (length (group_values k (keyed_values RankSamples.scores 0 1)))).
Proof.
  eexists. split; [vm_compute; reflexivity|].
  apply (first_rank_is_permutation CreateOptions.default RankSamples.scores
           "g" "x" None _ None 0%nat 1%nat).
  - repeat constructor.
  - intros ci Hci. vm_compute in Hci. injection Hci as <-.
    repeat constructor; eexists; reflexivity.
  - simpl. intros [H|[H|[H|[H|H]]]]; discriminate || done.
  - vm_compute. reflexivity.
  - reflexivity.
  - reflexivity.
Defined.

(** C5, as stated, fails when the group key is labelled [min_rank]: the
    second round of the loop overwrites the keys with the ranks, the two
    groups of one row become one group of two rows, and the row of the
    group of key 8 receives the rank 2. *)
Lemma first_rank_overwritten_group_key :
  ¬ first_rank_permutes CreateOptions.default RankSamples.keyed_by_min_rank
      "min_rank" "x".
Proof.
  intros H.
  assert (wf_frame RankSamples.keyed_by_min_rank) as Hwf by repeat constructor.
  assert (numeric_column RankSamples.keyed_by_min_rank "x") as Hnum.
  { intros ci Hci. vm_compute in Hci. injection Hci as <-.
    repeat constructor; eexists; reflexivity. }
  destruct (H Hwf Hnum None _ _ 0%nat 1%nat eq_refl eq_refl eq_refl) as [_ Hperm].
  specialize (Hperm 5%nat (Num 8) eq_refl eq_refl).
  vm_compute in Hperm. apply Permutation_length_1_inv in Hperm. discriminate.
Qed.

(** * Further properties *)

(** ** Directory enumeration *)

(** The loop adds every entry it passes: when it returns, nothing was
    left out. *)
Lemma entry_loop_Ok field it type_ acc r :
  entry_loop field it type_ acc = Ok r → r = acc ++ map field it.
Proof.
  revert acc. induction it as [|entry it IH]; intros acc H; simpl in H.
  - injection H as <-. by rewrite app_nil_r.
  - destruct (type_ =? 0);
      [|destruct ((type_ =? 1) && entry_is_file entry);
        [|destruct ((type_ =? 2) && entry_is_dir entry); [|done]]];
      apply IH in H as ->; by rewrite <- app_assoc.
Qed.

(** X1.  Whatever the selector, a list returned by [entry_contents] holds
    the name of every entry of the directory, in the order of the listing,
    and one returned by [entry_contents_path] the path of every entry: the
    two functions never leave an entry out. *)
Theorem enumeration_returns_every_entry
    (fs : filesystem) (path : string) (it : list DirEntry) (type_ : Z) :
  fs path = Some it →
  (∀ names, entry_contents fs path type_ = Ok names → names = map entry_name it)
  ∧ (∀ paths, entry_contents_path fs path type_ = Ok paths →
       paths = map entry_path it).
Proof.
  intros Hfs. unfold entry_contents, entry_contents_path, scandir. rewrite Hfs.
  cbn [bind]. split; intros r H; by apply entry_loop_Ok in H.
Qed.

Lemma enumeration_returns_every_entry_witness :
  DirSamples.fs_files "d" = Some [Samples.a_file; DirSamples.readme]
  ∧ entry_contents DirSamples.fs_files "d" 1 = Ok ["a.txt"; "README"]
  ∧ ["a.txt"; "README"] = map entry_name [Samples.a_file; DirSamples.readme].
Proof.
  split; [reflexivity|]. split; [reflexivity|].
  apply (proj1 (enumeration_returns_every_entry DirSamples.fs_files "d"
                  [Samples.a_file; DirSamples.readme] 1 eq_refl)).
  reflexivity.
Defined.

Lemma forallb_filter_all {A : Type} (f : A → bool) l :
  forallb f l = true → List.filter f l = l.
Proof.
  induction l as [|x l IH]; simpl; [done|].
  destruct (f x); [|done]. simpl. intros H. by rewrite IH.
Qed.

(** X2.  With the files-only selector, [entry_contents] and
    [entry_contents_path] agree with [get_files] and [get_files_path] when
    every entry is a file, and raise the [ValueError] otherwise; likewise
    with the directories-only selector and [get_dirs], [get_dirs_path]. *)
Theorem selected_kind_all_or_error
    (fs : filesystem) (path : string) (it : list DirEntry) :
  fs path = Some it →
  (if forallb entry_is_file it
   then entry_contents fs path 1 = get_files fs path
        ∧ entry_contents_path fs path 1 = get_files_path fs path
   else entry_contents fs path 1 = Raise (ValueError type_error_message)
        ∧ entry_contents_path fs path 1 = Raise (ValueError type_error_message))
  ∧ (if forallb entry_is_dir it
     then entry_contents fs path 2 = get_dirs fs path
          ∧ entry_contents_path fs path 2 = get_dirs_path fs path
     else entry_contents fs path 2 = Raise (ValueError type_error_message)
          ∧ entry_contents_path fs path 2 = Raise (ValueError type_error_message)).
Proof.
  intros Hfs.
  unfold entry_contents, entry_contents_path, get_files, get_files_path,
    get_dirs, get_dirs_path, scandir.
  rewrite Hfs. cbn [bind].
  rewrite !entry_loop_files, !entry_loop_dirs, !select_loop_filter. split.
  - destruct (forallb entry_is_file it) eqn:Hall; [|done].
    by rewrite (forallb_filter_all _ _ Hall).
  - destruct (forallb entry_is_dir it) eqn:Hall; [|done].
    by rewrite (forallb_filter_all _ _ Hall).
Qed.

Lemma selected_kind_all_or_error_witness :
  DirSamples.fs_files "d" = Some [Samples.a_file; DirSamples.readme]
  ∧ (entry_contents DirSamples.fs_files "d" 1 = get_files DirSamples.fs_files "d"
     ∧ entry_contents_path DirSamples.fs_files "d" 1
       = get_files_path DirSamples.fs_files "d")
  ∧ (entry_contents DirSamples.fs_files "d" 2 = Raise (ValueError type_error_message)
     ∧ entry_contents_path DirSamples.fs_files "d" 2
       = Raise (ValueError type_error_message)).
Proof.
  split; [reflexivity|].
  exact (selected_kind_all_or_error DirSamples.fs_files "d"
           [Samples.a_file; DirSamples.readme] eq_refl).
Defined.

(** X3.  [get_files], [get_files_path], [get_dirs] and [get_dirs_path]
    return the names, or the paths, of the entries of their kind, in the
    order of the listing; an entry of another kind is passed over without
    an error. *)
Theorem kind_helpers_filter
    (fs : filesystem) (path : string) (it : list DirEntry) :
  fs path = Some it →
  get_files fs path = Ok (map entry_name (List.filter entry_is_file it))
  ∧ get_files_path fs path = Ok (map entry_path (List.filter entry_is_file it))
  ∧ get_dirs fs path = Ok (map entry_name (List.filter entry_is_dir it))
  ∧ get_dirs_path fs path = Ok (map entry_path (List.filter entry_is_dir it)).
Proof.
  intros Hfs. unfold get_files, get_files_path, get_dirs, get_dirs_path, scandir.
  rewrite Hfs. cbn [bind]. by rewrite !select_loop_filter.
Qed.

Lemma kind_helpers_filter_witness :
  Samples.fs_mixed "d" = Some [Samples.a_file; Samples.sub_entry]
  ∧ get_files Samples.fs_mixed "d" = Ok ["a.txt"]
  ∧ get_dirs_path Samples.fs_mixed "d" = Ok ["d/sub"].
Proof.
  split; [reflexivity|].
  destruct (kind_helpers_filter Samples.fs_mixed "d"
              [Samples.a_file; Samples.sub_entry] eq_refl) as (Hf & _ & _ & Hd).
  split; [exact Hf|exact Hd].
Defined.

Lemma entry_dict_loop_invalid it type_ st :
  type_ ≠ 0 → type_ ≠ 1 → type_ ≠ 2 →
  entry_dict_loop it type_ st =
  match it with
  | [] => Ok st
  | _ :: _ => Raise (ValueError type_error_message)
  end.
Proof.
  intros H0 H1 H2. destruct it as [|entry it]; [done|]. simpl.
  destruct (Z.eqb_spec type_ 0); [done|].
  destruct (Z.eqb_spec type_ 1); [done|].
  destruct (Z.eqb_spec type_ 2); [done|]. done.
Qed.

(** X4.  On a directory that holds at least one entry, a selector other
    than 0, 1 and 2 makes [entry_contents], [entry_contents_path] and
    [entry_contents_dict] raise the [ValueError] that names the three
    values. *)
Theorem invalid_selector_raises_when_not_empty
    (fs : filesystem) (path : string) (entry : DirEntry) (it : list DirEntry)
    (type_ : Z) :
  fs path = Some (entry :: it) →
  type_ ≠ 0 → type_ ≠ 1 → type_ ≠ 2 →
  entry_contents fs path type_
  = Raise (ValueError "type input error, type is 0 or 1 or 2.")
  ∧ entry_contents_path fs path type_
    = Raise (ValueError "type input error, type is 0 or 1 or 2.")
  ∧ entry_contents_dict fs path type_
    = Raise (ValueError "type input error, type is 0 or 1 or 2.").
Proof.
  intros Hfs H0 H1 H2.
  unfold entry_contents, entry_contents_path, entry_contents_dict, scandir.
  rewrite Hfs. cbn [bind].
  by rewrite !entry_loop_invalid, entry_dict_loop_invalid.
Qed.

Lemma invalid_selector_raises_when_not_empty_witness :
  Samples.fs_sub "d" = Some [Samples.sub_entry]
  ∧ entry_contents Samples.fs_sub "d" 7
    = Raise (ValueError "type input error, type is 0 or 1 or 2.")
  ∧ entry_contents_path Samples.fs_sub "d" 7
    = Raise (ValueError "type input error, type is 0 or 1 or 2.")
  ∧ entry_contents_dict Samples.fs_sub "d" 7
    = Raise (ValueError "type input error, type is 0 or 1 or 2.").
Proof.
  split; [reflexivity|].
  by apply (invalid_selector_raises_when_not_empty Samples.fs_sub "d"
              Samples.sub_entry [] 7).
Defined.

(** *** The dictionary *)

Lemma entry_dict_loop_Ok it type_ st st' :
  entry_dict_loop it type_ st = Ok st' →
  st_dict st' = with_paths (st_dict st) it
  ∧ selected_names type_ st' = selected_names type_ st ++ map entry_name it.
Proof.
  revert st. induction it as [|entry it IH]; intros st H; simpl in H.
  - injection H as <-. by rewrite app_nil_r.
  - unfold selected_names in *.
    destruct (Z.eqb_spec type_ 0) as [->|H0]; [|destruct (Z.eqb_spec type_ 1) as [->|H1];
      [|destruct (Z.eqb_spec type_ 2) as [->|H2]; [|done]]];
      simpl in H;
      [|destruct (entry_is_file entry); [|done]|destruct (entry_is_dir entry); [|done]];
      apply IH in H as [-> Hsel]; simpl in *; (split; [done|]);
      rewrite Hsel; by rewrite <- app_assoc.
Qed.

Lemma with_paths_lookup d it name :
  (¬ In name (map entry_name it) → with_paths d it !! name = d !! name)
  ∧ (In name (map entry_name it) →
     ∃ entry, In entry it ∧ entry_name entry = name
              ∧ with_paths d it !! name = Some (DPath (entry_path entry))).
Proof.
  revert d. induction it as [|e it IH]; intros d; simpl.
  - split; [done|]. by intros [].
  - destruct (IH (chain_item d (entry_name e) (DPath (entry_path e)))) as [IHout IHin].
    destruct (in_dec string_dec name (map entry_name it)) as [Hin|Hout].
    + split; [intros H; destruct H; by right|]. intros _.
      destruct (IHin Hin) as (entry & Hentry & Hname & Hlookup).
      exists entry. split; [by right|done].
    + split.
      * intros Hnot. rewrite (IHout Hout). unfold chain_item.
        apply lookup_insert_ne. intros Heq. apply Hnot. by left.
      * intros [Heq|Hin]; [|done]. exists e. split; [by left|]. split; [done|].
        rewrite (IHout Hout). unfold chain_item. rewrite <- Heq.
        apply lookup_insert_eq.
Qed.

(** X5.  A dictionary returned by [entry_contents_dict] holds under the
    key ["name"] the list of the names of all the entries, also when an
    entry is itself called [name]: the path of that entry is lost.  Every
    other name that occurs once in the listing is a key for the path of
    its entry, and there are no further keys. *)
Theorem entry_contents_dict_keys
    (fs : filesystem) (path : string) (it : list DirEntry) (type_ : Z)
    (d : gmap string dict_value) :
  fs path = Some it →
  entry_contents_dict fs path type_ = Ok d →
  d !! "name" = Some (DNames (map entry_name it))
  ∧ (∀ entry,
       In entry it → entry_name entry ≠ "name" →
       (∀ other, In other it → entry_name other = entry_name entry → other = entry) →
       d !! entry_name entry = Some (DPath (entry_path entry)))
  ∧ (∀ key, key ≠ "name" → ¬ In key (map entry_name it) → d !! key = None).
Proof.
  intros Hfs H. unfold entry_contents_dict, scandir in H. rewrite Hfs in H.
  cbn [bind] in H. bind_inv H. injection H as <-.
  apply entry_dict_loop_Ok in Ha as [Hdict Hnames]. simpl in Hdict.
  fold (selected_names type_ a). rewrite Hnames, Hdict.
  assert (selected_names type_ (mkDictState [] [] [] ∅) = []) as ->.
  { unfold selected_names. simpl. by repeat destruct (_ =? _). }
  unfold chain_item at 1 2 3. split; [apply lookup_insert_eq|]. split.
  - intros entry Hin Hname Hunique.
    rewrite lookup_insert_ne by done.
    destruct (with_paths_lookup ∅ it (entry_name entry)) as [_ Hlookup].
    destruct Hlookup as (entry' & Hin' & Hname' & ->); [by apply in_map|].
    by rewrite (Hunique entry' Hin' Hname').
  - intros key Hkey Hnot. rewrite lookup_insert_ne by done.
    destruct (with_paths_lookup ∅ it key) as [Hout _].
    rewrite (Hout Hnot). apply lookup_empty.
Qed.

Lemma entry_contents_dict_keys_witness :
  ∃ d,
    DirSamples.fs_name "d" = Some [DirSamples.name_file; DirSamples.readme]
    ∧ entry_files_dict DirSamples.fs_name "d" = Ok d
    ∧ d !! "name" = Some (DNames ["name"; "README"])
    ∧ d !! "README" = Some (DPath "d/README").
Proof.
  eexists. split; [reflexivity|]. split; [reflexivity|].
  destruct (entry_contents_dict_keys DirSamples.fs_name "d"
              [DirSamples.name_file; DirSamples.readme] 1 _ eq_refl eq_refl)
    as (Hname & Hpath & _).
  split; [exact Hname|].
  apply (Hpath DirSamples.readme).
  - right. by left.
  - discriminate.
  - intros other [<-|[<-|[]]]; [discriminate|done].
Defined.

(** *** The three enumerations together *)

(** The three loops take the same branch at every entry. *)
Lemma loops_agree it type_ acc acc' st :
  match entry_loop entry_name it type_ acc with
  | Ok _ =>
      (∃ paths, entry_loop entry_path it type_ acc' = Ok paths)
      ∧ ∃ st', entry_dict_loop it type_ st = Ok st'
  | Raise e =>
      entry_loop entry_path it type_ acc' = Raise e
      ∧ entry_dict_loop it type_ st = Raise e
  | Diverge => False
  end.
Proof.
  revert acc acc' st. induction it as [|entry it IH]; intros acc acc' st; simpl.
  - eauto.
  - destruct (type_ =? 0); [apply IH|].
    destruct ((type_ =? 1) && entry_is_file entry); [apply IH|].
    destruct ((type_ =? 2) && entry_is_dir entry); [apply IH|done].
Qed.

(** X18.  [entry_contents], [entry_contents_path] and
    [entry_contents_dict] return together or raise the same exception
    together; when they return, the list of names is the one the
    dictionary holds under ["name"], and there are as many paths as
    names. *)
Theorem enumerations_return_together
    (fs : filesystem) (path : string) (type_ : Z) :
  match entry_contents fs path type_ with
  | Ok names =>
      ∃ paths d,
        entry_contents_path fs path type_ = Ok paths
        ∧ length paths = length names
        ∧ entry_contents_dict fs path type_ = Ok d
        ∧ d !! "name" = Some (DNames names)
  | Raise e =>
      entry_contents_path fs path type_ = Raise e
      ∧ entry_contents_dict fs path type_ = Raise e
  | Diverge => False
  end.
Proof.
  unfold entry_contents, entry_contents_path, entry_contents_dict, scandir.
  destruct (fs path) as [it|]; [|done]. cbn [bind].
  pose proof (loops_agree it type_ [] [] (mkDictState [] [] [] ∅)) as H.
  destruct (entry_loop entry_name it type_ []) as [names|e|] eqn:Hnames; [|by destruct H as [-> ->]|done].
  destruct H as [[paths Hpaths] [st' Hst']]. rewrite Hpaths, Hst'. cbn [bind].
  exists paths. eexists. split; [done|].
  apply entry_loop_Ok in Hnames as ->. apply entry_loop_Ok in Hpaths as ->.
  apply entry_dict_loop_Ok in Hst' as [_ Hsel]. split; [|split; [done|]].
  - by rewrite !length_app, !length_map.
  - unfold chain_item. rewrite lookup_insert_eq. fold (selected_names type_ st').
    rewrite Hsel. do 2 f_equal. unfold selected_names. simpl.
    by repeat destruct (_ =? _).
Qed.

(** ** Lines of text *)

Lemma readline_no_newline l : has_newline l = false → readline l = (l, "").
Proof.
  induction l as [|c l IH]; [done|]. cbn [has_newline readline]. intros H.
  apply orb_false_iff in H as [Hc Hl]. by rewrite Hc, (IH Hl).
Qed.

Lemma rstrip_line_break s : rstrip (s +:+ line_break) = rstrip s.
Proof.
  induction s as [|c s IH]; [done|]. rewrite append_cons. cbn [rstrip]. by rewrite IH.
Qed.

Lemma lstrip_append s t :
  lstrip (s +:+ t) = match lstrip s with
                     | EmptyString => lstrip t
                     | String c r => String c r +:+ t
                     end.
Proof.
  induction s as [|c s IH]; [done|]. rewrite append_cons. cbn [lstrip].
  destruct (is_space c); [done|]. by rewrite append_cons.
Qed.

(** The line break that closes a line does not count. *)
Lemma strip_line_break s : strip (s +:+ line_break) = strip s.
Proof.
  unfold strip. rewrite lstrip_append. destruct (lstrip s) as [|c r]; [done|].
  apply rstrip_line_break.
Qed.

Lemma rstrip_idempotent s : rstrip (rstrip s) = rstrip s.
Proof.
  induction s as [|c s IH]; [done|]. cbn [rstrip].
  destruct (rstrip s) as [|c' r] eqn:Hr.
  - destruct (is_space c) eqn:Hc; [done|]. cbn [rstrip]. by rewrite Hc.
  - cbn [rstrip] in *. by rewrite IH.
Qed.

Lemma lstrip_head s : lstrip (lstrip s) = lstrip s.
Proof.
  induction s as [|c s IH]; [done|]. cbn [lstrip].
  destruct (is_space c) eqn:Hc; [done|]. cbn [lstrip]. by rewrite Hc.
Qed.

Lemma lstrip_fixed_rstrip s : lstrip s = s → lstrip (rstrip s) = rstrip s.
Proof.
  destruct s as [|c s]; [done|]. cbn [lstrip rstrip].
  destruct (is_space c) eqn:Hc.
  - intros H. assert (String.length (lstrip s) ≤ String.length s)%nat as Hlen.
    { clear. induction s as [|c s IH]; simpl; [lia|].
      destruct (is_space c); simpl; lia. }
    rewrite H in Hlen. simpl in Hlen. lia.
  - intros _. destruct (rstrip s); cbn [lstrip]; by rewrite Hc.
Qed.

(** Stripping twice is stripping once. *)
Lemma strip_idempotent s : strip (strip s) = strip s.
Proof.
  unfold strip. rewrite lstrip_fixed_rstrip by apply lstrip_head.
  apply rstrip_idempotent.
Qed.

Lemma has_newline_lstrip s : has_newline s = false → has_newline (lstrip s) = false.
Proof.
  induction s as [|c s IH]; [done|]. cbn [lstrip]. destruct (is_space c); [|done].
  cbn [has_newline]. intros H. apply orb_false_iff in H as [_ H]. by apply IH.
Qed.

Lemma has_newline_rstrip s : has_newline s = false → has_newline (rstrip s) = false.
Proof.
  induction s as [|c s IH]; [done|]. cbn [has_newline rstrip]. intros H.
  apply orb_false_iff in H as [Hc Hs]. specialize (IH Hs).
  destruct (rstrip s) as [|c' r].
  - destruct (is_space c); [done|]. cbn [has_newline]. by rewrite Hc.
  - cbn [has_newline] in *. by rewrite Hc, IH.
Qed.

Lemma has_newline_strip s : has_newline s = false → has_newline (strip s) = false.
Proof. intros H. by apply has_newline_rstrip, has_newline_lstrip. Qed.

(** A line read is a text without a line break, closed by one or not. *)
Lemma readline_shape f :
  ∃ l, has_newline l = false
       ∧ ((readline f).1 = l ∨ (readline f).1 = l +:+ line_break).
Proof.
  induction f as [|c f (l & Hl & IH)]; [by exists ""; auto|]. cbn [readline].
  destruct (Ascii.eqb c newline) eqn:Hc.
  - exists "". split; [done|]. right. apply Ascii.eqb_eq in Hc as ->. done.
  - destruct (readline f) as [raw rest]. cbn [fst] in *.
    exists (String c l). split; [cbn [has_newline]; by rewrite Hc, Hl|].
    destruct IH as [->| ->]; [by left|by right].
Qed.

Lemma strip_readline_no_newline f : has_newline (strip (readline f).1) = false.
Proof.
  destruct (readline_shape f) as (l & Hl & [-> | ->]).
  - by apply has_newline_strip.
  - rewrite strip_line_break. by apply has_newline_strip.
Qed.

Lemma unlines_app ls ls' : unlines (ls ++ ls') = unlines ls +:+ unlines ls'.
Proof.
  induction ls as [|l ls IH]; [done|]. cbn [app unlines].
  by rewrite IH, append_assoc, append_cons.
Qed.

(** *** Reading to the end of the file *)

Lemma read_loop_to_end ls last fuel content :
  (length ls + (if String.eqb (strip last) "" then 0 else 1) < fuel)%nat →
  Forall plain_line ls →
  has_newline last = false →
  read_loop fuel (unlines ls +:+ last) content
  = Ok (content ++ map strip ls
          ++ (if String.eqb (strip last) "" then [""] else [strip last; ""])).
Proof.
  revert fuel content.
  induction ls as [|l ls IH]; intros fuel content Hfuel Hls Hlast;
    (destruct fuel as [|fuel]; [simpl in Hfuel; lia|]).
  - change (unlines [] +:+ last) with last. cbn [read_loop map app].
    rewrite (readline_no_newline _ Hlast).
    destruct (String.eqb_spec (strip last) "") as [->|Hne]; [done|].
    destruct fuel as [|fuel]; [simpl in Hfuel; lia|]. simpl.
    by rewrite <- app_assoc.
  - apply Forall_cons in Hls as [[Hl Hne] Hls].
    cbn [unlines]. rewrite append_assoc, append_cons.
    cbn [read_loop]. rewrite (readline_line _ _ Hl), strip_line_break.
    destruct (String.eqb_spec (strip l) "") as [|_]; [done|].
    rewrite IH; [|simpl in Hfuel; lia|done..].
    cbn [map]. by rewrite <- app_assoc.
Qed.

(** The lines of a returned list: not empty, stripped, without a line
    break; the list is closed by the empty string. *)
Lemma read_loop_Ok fuel f content c :
  read_loop fuel f content = Ok c →
  ∃ lines,
    c = content ++ lines ++ [""]
    ∧ Forall (fun l => l ≠ "" ∧ strip l = l ∧ has_newline l = false) lines.
Proof.
  revert f content. induction fuel as [|fuel IH]; intros f content H; [done|].
  cbn [read_loop] in H. pose proof (strip_readline_no_newline f) as Hnl.
  destruct (readline f) as [raw f']. cbn [fst] in Hnl.
  destruct (String.eqb_spec (strip raw) "") as [Hblank|Hline].
  - injection H as <-. exists []. by rewrite Hblank.
  - apply IH in H as (lines & -> & Hlines). exists (strip raw :: lines). split.
    + by rewrite <- app_assoc.
    + constructor; [|done]. split; [done|]. split; [apply strip_idempotent|done].
Qed.

(** X6.  In the list [read_file_line] returns, every element but the last
    is a line of the file that is not empty, has no white space at either
    end and no line break; and a file without a blank line is returned
    whole: its lines stripped, those of a last line without a line break
    included, then the empty string. *)
Theorem read_file_line_lines
    (fs : textfs) (path text : string) :
  fs path = Some text →
  (∀ content,
     read_file_line fs path = Ok content →
     ∃ lines,
       content = lines ++ [""]
       ∧ Forall (fun l => l ≠ "" ∧ strip l = l ∧ has_newline l = false) lines)
  ∧ (∀ ls last,
       text = unlines ls +:+ last →
       Forall plain_line ls →
       has_newline last = false →
       read_file_line fs path
       = Ok (map strip ls
               ++ (if String.eqb (strip last) "" then [""] else [strip last; ""]))).
Proof.
  intros Hfs. unfold read_file_line, open_text. rewrite Hfs. cbn [bind]. split.
  - intros content H. by apply read_loop_Ok in H.
  - intros ls last -> Hls Hlast. rewrite read_loop_to_end; [done| |done..].
    pose proof (unlines_length ls). rewrite append_length.
    destruct (String.eqb_spec (strip last) "") as [|Hne]; [lia|].
    destruct last; [done|]. simpl. lia.
Qed.

Lemma read_file_line_lines_witness :
  let fs : textfs := fun _ => Some (unlines [" a "; "b"] +:+ "c  ") in
  fs "f" = Some (unlines [" a "; "b"] +:+ "c  ")
  ∧ read_file_line fs "f" = Ok ["a"; "b"; "c"; ""].
Proof.
  intros fs. split; [reflexivity|].
  apply (proj2 (read_file_line_lines fs "f" _ eq_refl) [" a "; "b"] "c  ").
  - reflexivity.
  - repeat constructor; discriminate.
  - reflexivity.
Defined.

(** ** Writing lines *)

Lemma append_nil_r s : s +:+ "" = s.
Proof. induction s as [|c s IH]; [done|]. by rewrite append_cons, IH. Qed.

Lemma write_loop_closed content line written :
  write_loop content line written
  = written +:+ concat_all (map (fun li => li +:+ line) content).
Proof.
  revert written. induction content as [|li content IH]; intros written.
  - cbn [write_loop map concat_all fold_right]. by rewrite append_nil_r.
  - cbn [write_loop map concat_all fold_right]. rewrite IH.
    by rewrite append_assoc.
Qed.

Lemma concat_all_app ls ls' : concat_all (ls ++ ls') = concat_all ls +:+ concat_all ls'.
Proof.
  induction ls as [|l ls IH]; [done|]. cbn [app concat_all fold_right].
  fold (concat_all (ls ++ ls')). fold (concat_all ls). by rewrite IH, append_assoc.
Qed.

Lemma concat_all_unlines ls :
  concat_all (map (fun l => l +:+ line_break) ls) = unlines ls.
Proof.
  induction ls as [|l ls IH]; [done|]. cbn [map concat_all fold_right unlines].
  fold (concat_all (map (fun l => l +:+ line_break) ls)).
  by rewrite IH, append_assoc.
Qed.

Lemma write_loop_unlines content old :
  write_loop content line_break (unlines old) = unlines (old ++ content).
Proof. by rewrite write_loop_closed, concat_all_unlines, unlines_app. Qed.

(** *** Carriage returns *)

Lemma universal_newlines_append a b :
  has_return a = false →
  universal_newlines (a +:+ b) = a +:+ universal_newlines b.
Proof.
  induction a as [|c a IH]; [done|]. cbn [has_return]. intros H.
  apply orb_false_iff in H as [Hc Ha]. rewrite !append_cons.
  cbn [universal_newlines]. by rewrite Hc, (IH Ha).
Qed.

Lemma universal_newlines_id s : has_return s = false → universal_newlines s = s.
Proof.
  intros H. rewrite <- (append_nil_r s) at 1.
  rewrite (universal_newlines_append _ _ H). apply append_nil_r.
Qed.

Lemma universal_newlines_no_return s : has_return (universal_newlines s) = false.
Proof.
  induction s as [|c s IH]; [done|]. cbn [universal_newlines].
  destruct (Ascii.eqb c carriage_return) eqn:Hc.
  - destruct s as [|c' s]; [done|]. destruct (Ascii.eqb c' newline); [done|].
    cbn [has_return]. by rewrite IH.
  - cbn [has_return]. by rewrite Hc, IH.
Qed.

Lemma has_return_append a b :
  has_return (a +:+ b) = has_return a || has_return b.
Proof.
  induction a as [|c a IH]; [done|]. rewrite append_cons. cbn [has_return].
  by rewrite IH, orb_assoc.
Qed.

Lemma has_return_unlines ls :
  Forall (fun l => has_return l = false) ls → has_return (unlines ls) = false.
Proof.
  induction 1 as [|l ls Hl _ IH]; [done|]. cbn [unlines].
  rewrite has_return_append. cbn [has_return]. by rewrite Hl, IH.
Qed.

Lemma written_lines_plain ls :
  Forall written_line ls →
  Forall plain_line ls ∧ Forall (fun l => has_return l = false) ls.
Proof.
  induction 1 as [|l ls [Hr Hp] _ [IH1 IH2]]; [done|]. by split; constructor.
Qed.

(** What the reader receives of a file written by [write_file_line]. *)
Lemma reader_write_file_line d path content line mode :
  reader (write_file_line d path content line mode) path
  = Some (universal_newlines (write_loop content line (opened_text d path mode))).
Proof. unfold reader, write_file_line. by rewrite String.eqb_refl. Qed.

(** X7.  Lines written by [write_file_line] with the line feed are read
    back by [read_file_line], after the lines the file held, stripped and
    followed by the empty string, when no line is blank or holds a line
    feed or a carriage return. *)
Theorem written_lines_are_read_back
    (d : disk) (path : string) (old content : list string) (mode : write_mode) :
  opened_text d path mode = unlines old →
  Forall written_line (old ++ content) →
  read_file_line (reader (write_file_line d path content line_break mode)) path
  = Ok (map strip (old ++ content) ++ [""]).
Proof.
  intros Hold Hlines. apply written_lines_plain in Hlines as [Hplain Hret].
  unfold read_file_line, open_text. rewrite reader_write_file_line, Hold.
  rewrite write_loop_unlines, (universal_newlines_id _ (has_return_unlines _ Hret)).
  cbn [bind]. rewrite <- (append_nil_r (unlines (old ++ content))) at 2.
  rewrite read_loop_to_end; [done| |done..].
  pose proof (unlines_length (old ++ content)). simpl. lia.
Qed.

Lemma written_lines_are_read_back_witness :
  opened_text WriteSamples.one_file "in.txt" mode_a = unlines [" chr1 "]
  ∧ read_file_line
      (reader (write_file_line WriteSamples.one_file "in.txt" WriteSamples.lines
                 line_break mode_a)) "in.txt"
    = Ok ["chr1"; "chr1 10 20"; "chr2 5 9"; ""].
Proof.
  split; [reflexivity|].
  apply (written_lines_are_read_back WriteSamples.one_file "in.txt" [" chr1 "]
           WriteSamples.lines mode_a).
  - reflexivity.
  - repeat constructor; discriminate.
Defined.

(** X8.  A blank element of the written list ends what is read back: the
    elements after it are in the file, and [read_file_line] does not
    return them. *)
Theorem blank_line_ends_what_is_read_back
    (d : disk) (path : string) (old before : list string) (blank : string)
    (after : list string) (mode : write_mode) :
  opened_text d path mode = unlines old →
  Forall written_line (old ++ before) →
  has_newline blank = false →
  has_return blank = false →
  strip blank = "" →
  read_file_line
    (reader (write_file_line d path (before ++ blank :: after) line_break mode)) path
  = Ok (map strip (old ++ before) ++ [""]).
Proof.
  intros Hold Hlines Hnl Hcr Hblank.
  apply written_lines_plain in Hlines as [Hplain Hret].
  unfold read_file_line, open_text. rewrite reader_write_file_line, Hold.
  rewrite write_loop_unlines, app_assoc, unlines_app. cbn [unlines].
  rewrite <- append_assoc, universal_newlines_append.
  2:{ rewrite has_return_append, (has_return_unlines _ Hret). done. }
  cbn [universal_newlines].
  replace (Ascii.eqb newline carriage_return) with false by done.
  rewrite append_assoc. cbn [bind].
  rewrite (read_loop_lines (old ++ before) blank).
  - rewrite app_nil_l. do 2 f_equal. apply List.map_ext. intros l.
    apply strip_line_break.
  - pose proof (unlines_length (old ++ before)). rewrite !append_length. lia.
  - eapply Forall_impl; [exact Hplain|]. intros l [Hl Hne].
    by rewrite strip_line_break.
  - done.
  - by rewrite strip_line_break.
Qed.

Lemma blank_line_ends_what_is_read_back_witness :
  read_file_line
    (reader (write_file_line WriteSamples.no_files "out.txt" ["a"; "  "; "b"]
               line_break mode_w)) "out.txt"
  = Ok ["a"; ""].
Proof.
  apply (blank_line_ends_what_is_read_back WriteSamples.no_files "out.txt"
           [] ["a"] "  " ["b"] mode_w); try reflexivity.
  repeat constructor; discriminate.
Defined.

(** X9.  Two calls of [write_file_line] on one file, the second one
    appending, leave what one call with the two lists one after the other
    leaves; a second call with ['w'] leaves what it alone writes. *)
Theorem write_file_line_twice
    (d : disk) (path : string) (c1 c2 : list string) (line : string)
    (mode : write_mode) (p : string) :
  write_file_line (write_file_line d path c1 line mode) path c2 line mode_a p
  = write_file_line d path (c1 ++ c2) line mode p
  ∧ write_file_line (write_file_line d path c1 line mode) path c2 line mode_w p
    = write_file_line d path c2 line mode_w p.
Proof.
  unfold write_file_line. destruct (String.eqb_spec p path) as [->|Hp]; [|done].
  split; [|done]. f_equal. unfold opened_text at 1. rewrite String.eqb_refl.
  rewrite !write_loop_closed, map_app, concat_all_app. by rewrite append_assoc.
Qed.

(** ** Rewriting a file line by line *)

(** The two loops read the same lines: [read_write_line] writes, one
    after the other, what the callback makes of the lines
    [read_file_line] collects. *)
Lemma read_write_loop_lines callback fuel f content w :
  (String.length f < fuel)%nat →
  ∃ lines,
    read_loop fuel f content = Ok (content ++ lines ++ [""])
    ∧ read_write_loop fuel f callback w
      = Ok (w +:+ concat_all (map (rendered callback) lines)).
Proof.
  revert f content w.
  induction fuel as [|fuel IH]; intros f content w Hfuel; [lia|].
  cbn [read_loop read_write_loop]. pose proof (readline_length f) as Hlen.
  destruct (readline f) as [raw f']. cbn [fst snd] in Hlen.
  destruct (String.eqb_spec (strip raw) "") as [Hblank|Hline].
  - exists []. rewrite Hblank. cbn [map concat_all fold_right app].
    by rewrite append_nil_r.
  - assert (String.length f' < fuel)%nat as Hfuel'.
    { destruct raw as [|c raw]; [done|]. simpl in Hlen. lia. }
    destruct (callback (strip raw)) as [|field fields] eqn:Hcall.
    + destruct (IH f' (content ++ [strip raw]) w Hfuel') as (lines & Hread & Hwrite).
      exists (strip raw :: lines). rewrite Hread, Hwrite, <- app_assoc.
      split; [done|]. cbn [map concat_all fold_right]. unfold rendered at 2.
      by rewrite Hcall.
    + destruct (IH f' (content ++ [strip raw])
                  (w +:+ (String.concat tab (field :: fields) +:+ line_break))
                  Hfuel') as (lines & Hread & Hwrite).
      exists (strip raw :: lines). rewrite Hread, Hwrite, <- app_assoc.
      split; [done|]. cbn [map concat_all fold_right]. unfold rendered at 2.
      by rewrite Hcall, !append_assoc.
Qed.

(** The same, from the start of the input. *)
Lemma read_write_line_lines text callback column :
  ∃ lines,
    read_loop (S (String.length text)) text [] = Ok (lines ++ [""])
    ∧ read_write_line text callback column
      = Ok (header_text column +:+ concat_all (map (rendered callback) lines)).
Proof.
  destruct (read_write_loop_lines callback (S (String.length text)) text []
              (header_text column)) as (lines & Hread & Hwrite); [lia|].
  by exists lines.
Qed.

(** X10.  [read_write_line] writes the column names, if there are any, on
    a first line, and then for each line [read_file_line] returns before
    the closing empty string, in that order, the fields the callback
    makes of it joined by tabs on a line of their own; nothing for a line
    of which the callback makes no field. *)
Theorem read_write_line_writes_each_line
    (fs : textfs) (path text : string) (callback : string -> list string)
    (column : option (list string)) :
  fs path = Some text →
  ∃ lines,
    read_file_line fs path = Ok (lines ++ [""])
    ∧ read_write_line text callback column
      = Ok (header_text column +:+ concat_all (map (rendered callback) lines)).
Proof.
  intros Hfs. unfold read_file_line, open_text. rewrite Hfs. cbn [bind].
  apply read_write_line_lines.
Qed.

Lemma read_write_line_writes_each_line_witness :
  let fs : textfs := fun _ => Some (unlines ["chr1"; "chr2 5 9"; " chrX "]) in
  fs "in.txt" = Some (unlines ["chr1"; "chr2 5 9"; " chrX "])
  ∧ ∃ lines,
      read_file_line fs "in.txt" = Ok (lines ++ [""])
      ∧ read_write_line (unlines ["chr1"; "chr2 5 9"; " chrX "])
          WriteSamples.keep_short (Some ["name"; "size"])
        = Ok (header_text (Some ["name"; "size"])
              +:+ concat_all (map (rendered WriteSamples.keep_short) lines)).
Proof.
  intros fs. split; [reflexivity|].
  apply (read_write_line_writes_each_line fs "in.txt" _ WriteSamples.keep_short
           (Some ["name"; "size"])).
  reflexivity.
Defined.

Lemma reader_no_return d path text :
  reader d path = Some text → has_return text = false.
Proof.
  unfold reader. destruct (d path) as [raw|]; [|done]. intros [= <-].
  apply universal_newlines_no_return.
Qed.

Lemma has_return_lstrip s : has_return s = false → has_return (lstrip s) = false.
Proof.
  induction s as [|c s IH]; [done|]. cbn [lstrip]. destruct (is_space c); [|done].
  cbn [has_return]. intros H. apply orb_false_iff in H as [_ H]. by apply IH.
Qed.

Lemma has_return_rstrip s : has_return s = false → has_return (rstrip s) = false.
Proof.
  induction s as [|c s IH]; [done|]. cbn [has_return rstrip]. intros H.
  apply orb_false_iff in H as [Hc Hs]. specialize (IH Hs).
  destruct (rstrip s) as [|c' r].
  - destruct (is_space c); [done|]. cbn [has_return]. by rewrite Hc.
  - cbn [has_return] in *. by rewrite Hc, IH.
Qed.

Lemma has_return_readline f :
  has_return f = false →
  has_return (readline f).1 = false ∧ has_return (readline f).2 = false.
Proof.
  induction f as [|c f IH]; [done|]. cbn [has_return readline]. intros H.
  apply orb_false_iff in H as [Hc Hf]. destruct (Ascii.eqb c newline).
  - cbn [fst snd has_return]. by rewrite Hc.
  - destruct (IH Hf) as [H1 H2]. destruct (readline f) as [line rest].
    cbn [fst snd has_return] in *. by rewrite Hc, H1.
Qed.

(** The lines read of a text without a carriage return have none. *)
Lemma read_loop_no_return fuel f content c :
  has_return f = false →
  Forall (fun l => has_return l = false) content →
  read_loop fuel f content = Ok c →
  Forall (fun l => has_return l = false) c.
Proof.
  revert f content. induction fuel as [|fuel IH]; intros f content Hf Hc H; [done|].
  cbn [read_loop] in H. destruct (has_return_readline f Hf) as [Hraw Hrest].
  destruct (readline f) as [raw f']. cbn [fst snd] in Hraw, Hrest.
  assert (Forall (fun l => has_return l = false) (content ++ [strip raw])) as Hc'.
  { apply Forall_app. split; [done|]. constructor; [|done].
    by apply has_return_rstrip, has_return_lstrip. }
  destruct (String.eqb (strip raw) ""); [by injection H as <-|].
  by apply (IH f' _ Hrest Hc').
Qed.

(** X11.  With the callback that returns the line as its one field and
    without column names, [read_write_line] copies the lines
    [read_file_line] returns of the input: the copy holds them one per
    line, and [read_file_line] returns of the copy what it returns of the
    input. *)
Theorem copy_is_read_like_the_input
    (d : disk) (path output text : string) :
  path ≠ output →
  reader d path = Some text →
  ∃ lines,
    read_file_line (reader d) path = Ok (lines ++ [""])
    ∧ read_write_line text (fun line => [line]) None = Ok (unlines lines)
    ∧ read_file_line (reader (stored d output (unlines lines))) output
      = Ok (lines ++ [""]).
Proof.
  intros _ Hfs.
  destruct (read_write_line_lines text (fun line => [line]) None)
    as (lines & Hlines & Hwrite).
  exists lines. split.
  { unfold read_file_line, open_text. by rewrite Hfs. }
  pose proof (read_loop_no_return _ _ _ _ (reader_no_return _ _ _ Hfs)
                (List.Forall_nil _) Hlines) as Hret.
  apply Forall_app in Hret as [Hret _].
  apply read_loop_Ok in Hlines as (lines' & Heq & Hshape).
  cbn [app] in Heq. apply app_inj_tail in Heq as [<- _].
  split.
  - rewrite Hwrite. cbn [header_text].
    change ("" +:+ ?s) with s. f_equal.
    clear. induction lines as [|l lines IH]; [done|].
    cbn [map concat_all fold_right unlines]. fold (concat_all (map (rendered (fun line => [line])) lines)).
    rewrite IH. unfold rendered. cbn [String.concat].
    by rewrite append_assoc.
  - unfold read_file_line, open_text, reader, stored.
    rewrite String.eqb_refl. cbn [fmap option_fmap option_map bind].
    rewrite (universal_newlines_id _ (has_return_unlines _ Hret)).
    rewrite <- (append_nil_r (unlines lines)) at 2.
    rewrite read_loop_to_end.
    + cbn [app]. do 2 f_equal.
      clear -Hshape. induction Hshape as [|l ls (_ & Hl & _) _ IH]; [done|].
      cbn [map]. by rewrite Hl, IH.
    + pose proof (unlines_length lines). simpl. lia.
    + eapply Forall_impl; [exact Hshape|]. intros l (Hne & Hl & Hnl).
      split; [done|]. by rewrite Hl.
    + done.
Qed.

Lemma copy_is_read_like_the_input_witness :
  "in.txt" ≠ "out.txt"
  ∧ reader WriteSamples.one_file "in.txt" = Some (unlines [" chr1 "])
  ∧ ∃ lines,
      read_file_line (reader WriteSamples.one_file) "in.txt" = Ok (lines ++ [""])
      ∧ read_write_line (unlines [" chr1 "]) (fun line => [line]) None
        = Ok (unlines lines)
      ∧ read_file_line
          (reader (stored WriteSamples.one_file "out.txt" (unlines lines))) "out.txt"
        = Ok (lines ++ [""]).
Proof.
  split; [discriminate|]. split; [reflexivity|].
  apply (copy_is_read_like_the_input WriteSamples.one_file "in.txt" "out.txt").
  - discriminate.
  - reflexivity.
Defined.

(** ** Suffixes *)

Lemma substring_all s : substring 0 (String.length s) s = s.
Proof. induction s as [|c s IH]; [done|]. simpl. by rewrite IH. Qed.

Lemma substring_skip pre k m s :
  substring (String.length pre + k) m (pre +:+ s) = substring k m s.
Proof. induction pre as [|c pre IH]; [done|]. rewrite append_cons. exact IH. Qed.

Lemma substring_split k m s suf :
  (k + m)%nat = String.length s → substring k m s = suf →
  ∃ pre, s = pre +:+ suf ∧ String.length pre = k.
Proof.
  revert s. induction k as [|k IH]; intros s Hlen Hsub.
  - exists "". split; [|done]. simpl in Hlen. subst m.
    by rewrite substring_all in Hsub.
  - destruct s as [|c s]; [done|]. simpl in Hlen, Hsub.
    destruct (IH s) as (pre & -> & Hpre); [lia|done|].
    exists (String c pre). split; [done|]. simpl. by rewrite Hpre.
Qed.

(** A string ends with a suffix when it is some text followed by it. *)
Lemma endswith_split s suf :
  endswith s suf = true → ∃ pre, s = pre +:+ suf.
Proof.
  unfold endswith. intros H. apply andb_true_iff in H as [Hle H].
  apply Nat.leb_le in Hle. apply String.eqb_eq in H.
  destruct (substring_split (String.length s - String.length suf)
              (String.length suf) s suf) as (pre & Hpre & _); [lia|done|].
  by exists pre.
Qed.

(** Of two suffixes of one string, the shorter one is a suffix of the
    longer one. *)
Lemma endswith_shorter file s1 s2 :
  endswith file s1 = true →
  (String.length s2 ≤ String.length s1)%nat →
  endswith file s2 = endswith s1 s2.
Proof.
  intros H Hlen. apply endswith_split in H as [pre ->]. unfold endswith.
  rewrite append_length.
  replace (String.length pre + String.length s1 - String.length s2)%nat
    with (String.length pre + (String.length s1 - String.length s2))%nat by lia.
  rewrite substring_skip.
  by rewrite (proj2 (Nat.leb_le _ _) Hlen), (proj2 (Nat.leb_le _ _)) by lia.
Qed.

(** Two suffixes neither of which ends with the other exclude each
    other. *)
Lemma endswith_exclusive file s1 s2 :
  endswith s1 s2 = false → endswith s2 s1 = false →
  endswith file s1 = true → endswith file s2 = false.
Proof.
  intros H12 H21 H1.
  destruct (Nat.le_gt_cases (String.length s2) (String.length s1)) as [Hle|Hgt].
  - by rewrite (endswith_shorter _ _ _ H1 Hle).
  - destruct (endswith file s2) eqn:H2; [|done].
    rewrite (endswith_shorter _ _ _ H2) in H1 by lia. congruence.
Qed.

(** On a path that ends with one suffix, the test for another one
    fails. *)
Ltac excluded H s :=
  match type of H with
  | endswith ?file ?s1 = true =>
      rewrite (endswith_exclusive file s1 s eq_refl eq_refl H)
  end.

(** ** Writing and reading: the formats *)

(** X12.  A path that ends in [.txt], [.csv], [.xls] or [.xlsx] is
    written by [to_file] and read by [get_content] in one format:
    delimited text with the separator of the writer and of the reader for
    [.txt], delimited text with the comma for [.csv], a spreadsheet for
    [.xls] and [.xlsx]. *)
Theorem written_and_read_in_one_format
    (c : CreateOptions.t) (r : Read.t) (file : string) :
  (endswith file ".txt" = true →
   to_file_call c file
   = to_csv file (CreateOptions.sep c) (CreateOptions.line_terminator c)
       (CreateOptions.header c) (CreateOptions.encoding c) (CreateOptions.index c)
   ∧ Read.get_content r file
     = Some (read_table file (Read.sep r) (Read.header r) (Read.encoding r)
               (Read.low_memory r)))
  ∧ (endswith file ".csv" = true →
     to_file_call c file
     = to_csv file "," (CreateOptions.line_terminator c)
         (CreateOptions.header c) (CreateOptions.encoding c) (CreateOptions.index c)
     ∧ Read.get_content r file
       = Some (read_csv file "," (Read.header r) (Read.encoding r)
                 (Read.low_memory r)))
  ∧ (endswith file ".xls" = true ∨ endswith file ".xlsx" = true →
     to_file_call c file
     = to_excel file (CreateOptions.sheet_name c) (CreateOptions.header c)
         (CreateOptions.index c)
     ∧ Read.get_content r file
       = Some (read_excel file (Read.sheet_name r) (excel_header (Read.header r)))).
Proof.
  unfold to_file_call, Read.get_content. split; [|split].
  - intros H. by rewrite H.
  - intros H. excluded H ".txt".
    excluded H ".bed".
    by rewrite H.
  - intros [H|H];
      excluded H ".txt";
      excluded H ".bed";
      excluded H ".csv";
      rewrite H; by rewrite ?orb_true_r.
Qed.

Lemma written_and_read_in_one_format_witness :
  endswith "table.xlsx" ".xlsx" = true
  ∧ to_file_call CreateOptions.default "table.xlsx"
    = to_excel "table.xlsx" "new_sheet" true false
  ∧ Read.get_content Read.default "table.xlsx"
    = Some (read_excel "table.xlsx" (SheetIndex 0) 0).
Proof.
  split; [reflexivity|].
  apply (proj2 (proj2 (written_and_read_in_one_format CreateOptions.default
                         Read.default "table.xlsx"))).
  right. reflexivity.
Defined.

(** X13.  A path that ends in [.bed], [.html], [.htm] or [.json] is
    written by [to_file] as the plain rendering of the table, and handed
    by [get_content] to the parser of delimited text, of HTML or of
    JSON. *)
Theorem plain_rendering_is_parsed
    (c : CreateOptions.t) (r : Read.t) (file : string) :
  (endswith file ".bed" = true →
   to_file_call c file = to_string file
   ∧ Read.get_content r file
     = Some (read_table file (Read.sep r) (Read.header r) (Read.encoding r)
               (Read.low_memory r)))
  ∧ (endswith file ".html" = true ∨ endswith file ".htm" = true →
     to_file_call c file = to_string file
     ∧ Read.get_content r file
       = Some (read_html file (Read.header r) (Read.encoding r)))
  ∧ (endswith file ".json" = true →
     to_file_call c file = to_string file
     ∧ Read.get_content r file
       = Some (read_json file (Read.orient r) (Read.lines r) (Read.encoding r))).
Proof.
  unfold to_file_call, Read.get_content. split; [|split].
  - intros H. excluded H ".txt".
    excluded H ".csv".
    excluded H ".xls".
    excluded H ".xlsx".
    by rewrite H, orb_true_r.
  - intros [H|H];
      excluded H ".txt";
      excluded H ".bed";
      excluded H ".csv";
      excluded H ".xls";
      excluded H ".xlsx";
      rewrite H; by rewrite ?orb_true_r.
  - intros H.
    excluded H ".txt".
    excluded H ".bed".
    excluded H ".csv".
    excluded H ".xls".
    excluded H ".xlsx".
    excluded H ".html".
    excluded H ".htm".
    by rewrite H.
Qed.

Lemma plain_rendering_is_parsed_witness :
  endswith "peaks.bed" ".bed" = true
  ∧ to_file_call CreateOptions.default "peaks.bed" = to_string "peaks.bed"
  ∧ Read.get_content Read.default "peaks.bed"
    = Some (read_table "peaks.bed" (Read.sep Read.default) HeaderInfer "utf-8" false).
Proof.
  split; [reflexivity|].
  apply (proj1 (plain_rendering_is_parsed CreateOptions.default Read.default
                  "peaks.bed")).
  reflexivity.
Defined.

(** X14.  The readers of [_read_.py] and of [__init__.py] that have the
    same settings hand every path to the same parser with the same
    arguments, but for a path that ends in [.tsv]: [_read_.py] reads it
    as delimited text, [__init__.py] hands it to no parser. *)
Theorem readers_differ_on_tsv_only
    (r : Read.t) (log_file : string) (is_form_log_file : bool) (file : string) :
  (endswith file ".tsv" = false →
   ReadFile.get_content (with_log r log_file is_form_log_file) file
   = Read.get_content r file)
  ∧ (endswith file ".tsv" = true →
     ReadFile.get_content (with_log r log_file is_form_log_file) file
     = Some (read_table file (Read.sep r) (Read.header r) (Read.encoding r)
               (Read.low_memory r))
     ∧ Read.get_content r file = None).
Proof.
  unfold ReadFile.get_content, Read.get_content, with_log. split.
  - intros H. rewrite H, orb_false_r. done.
  - intros H. split; [by rewrite H, orb_true_r|].
    excluded H ".txt".
    excluded H ".bed".
    excluded H ".csv".
    excluded H ".xls".
    excluded H ".xlsx".
    excluded H ".html".
    excluded H ".htm".
    by excluded H ".json".
Qed.

Lemma readers_differ_on_tsv_only_witness :
  endswith "counts.tsv" ".tsv" = true
  ∧ ReadFile.get_content (with_log Read.default "YKenan_file" true) "counts.tsv"
    = Some (read_table "counts.tsv" (Read.sep Read.default) HeaderInfer "utf-8" false)
  ∧ Read.get_content Read.default "counts.tsv" = None.
Proof.
  split; [reflexivity|].
  apply (proj2 (readers_differ_on_tsv_only Read.default "YKenan_file" true
                  "counts.tsv")).
  reflexivity.
Defined.

(** ** Merging a list of tables *)

Lemma column_index_missing cols label :
  ¬ In label cols → column_index cols label = Raise (KeyError label).
Proof.
  intros Hnot. unfold column_index.
  destruct (label_positions label cols 0) as [|i ps] eqn:Hps; [done|].
  exfalso. apply Hnot.
  assert (In i (label_positions label cols 0)) as Hin by (rewrite Hps; by left).
  apply label_positions_spec in Hin as [_ Hin]. apply list_elem_of_In.
  by eapply list_elem_of_lookup_2.
Qed.

(** A loop that merges at least once has looked up the key in every
    table. *)
Lemma merge_loop_keys new_file files on t :
  files ≠ [] →
  Create.merge_loop new_file files on = Ok t →
  has_key on new_file ∧ Forall (has_key on) files.
Proof.
  revert new_file. induction files as [|file_i files IH]; intros new_file Hne H;
    [done|].
  cbn [Create.merge_loop] in H. bind_inv H.
  pose proof Ha as Hmerged.
  apply pd_merge_Ok in Ha as (li & ri & Hli & Hri & _ & _).
  split; [by exists li|]. constructor; [by exists ri|].
  destruct files as [|file_j files]; [done|].
  by apply (IH a).
Qed.

(** X15.  [merge_files] on the empty list raises [IndexError]; a list of
    one table is saved as it is, whether it has the key column or not;
    from two tables on, the call returns only if every table has the key
    column, once, and raises [KeyError] if the first table has none and
    the second one has it once or not at all. *)
Theorem merge_files_looks_up_the_key_from_two_tables_on
    (self : CreateOptions.t) (on : string) (output_file : option string) :
  Create.merge_files self [] on output_file
  = Raise (IndexError "list index out of range")
  ∧ (∀ t, Create.merge_files self [t] on output_file
          = Ok (Create.save self t output_file))
  ∧ (∀ t1 t2 files saved,
       Create.merge_files self (t1 :: t2 :: files) on output_file = Ok saved →
       Forall (has_key on) (t1 :: t2 :: files))
  ∧ (∀ t1 t2 files,
       ¬ In on (columns t1) →
       has_key on t2 ∨ ¬ In on (columns t2) →
       Create.merge_files self (t1 :: t2 :: files) on output_file
       = Raise (KeyError on)).
Proof.
  split; [done|]. split; [done|]. split.
  - intros t1 t2 files saved H. unfold Create.merge_files in H. bind_inv H.
    cbn [Create.merged_table] in Ha.
    apply merge_loop_keys in Ha as [H1 Hrest]; [|done]. by constructor.
  - intros t1 t2 files Hnot _. unfold Create.merge_files.
    cbn [Create.merged_table Create.merge_loop]. unfold pd_merge.
    by rewrite (column_index_missing _ _ Hnot).
Qed.

Lemma merge_files_looks_up_the_key_from_two_tables_on_witness :
  (∃ saved,
     Create.merge_files CreateOptions.default
       [JoinSamples.people; JoinSamples.ages; JoinSamples.towns] "id" None
     = Ok saved)
  ∧ Forall (has_key "id") [JoinSamples.people; JoinSamples.ages; JoinSamples.towns].
Proof.
  split; [eexists; vm_compute; reflexivity|].
  apply (proj1 (proj2 (proj2 (merge_files_looks_up_the_key_from_two_tables_on
                                CreateOptions.default "id" None)))
           JoinSamples.people JoinSamples.ages [JoinSamples.towns] None).
  vm_compute. reflexivity.
Defined.

(** ** The rank columns *)











(** ** The table of all statistics *)

(** *** The keys of the groups are distinct *)








(** *** Joining tables that list the same keys *)





(** *** One more column *)






(** *** What [add_calculation_by_group] saves *)






